(** * String Analyzer service: analysis, filtering and query translation

    A shallow embedding of the Python sources
    - [app/services/analyzer.py]  (fingerprint and property analysis),
    - [app/utils/nlp_parser.py]   (natural-language query translation),
    - [app/models/file_storage.py] (the JSON key-value store),
    - [app/api.py]                (the routes and the handler of validation
                                   errors),
    followed by the properties of the specification proved about them.

    Python values are modelled as follows.
    - A [str] is the list of its Unicode code points ([pystr]); [len] is
      the length of that list.
    - An [int] is a [Z].
    - A [dict] is a [gmap]; a [set] is a [gset].
    - A function that may raise returns a [result]; the clock that the
      analysis reads is an argument.
    - The interpreter's Unicode tables and [hashlib] are not part of the
      repository: they are the fields of the class [PyRuntime].  Every
      general theorem holds for an arbitrary runtime; the instance
      [ascii_runtime], exact on strings of code points below 128, is used
      to run the functions on concrete inputs. *)

From Stdlib Require Import ZArith NArith List Bool Ascii String Lia.
From stdpp Require Import base decidable option list gmap fin_maps strings.

Set Default Proof Using "Type".
Local Open Scope Z_scope.

(** * The program *)

(** ** Strings *)

(** A character is a Unicode code point. *)
Abbreviation char := N.
Abbreviation pystr := (list N).

(** Code points of an ASCII literal. *)
Definition u (s : string) : pystr :=
  map N_of_ascii (list_ascii_of_string s).

(** The part of the interpreter the sources call into. *)
Class PyRuntime := {
  (** [str.lower()]; it may change the number of characters. *)
  str_lower : pystr → pystr;
  str_lower_nil : str_lower [] = [];
  (** [c.isalnum()] for a one-character string. *)
  chr_isalnum : char → bool;
  (** Unicode whitespace: [str.split()], [str.strip()] and the regex
      class [\s]. *)
  chr_isspace : char → bool;
  (** Unicode decimal digits: the regex class [\d]; [int] accepts them. *)
  chr_isdecimal : char → bool;
  (** Value of a decimal digit. *)
  chr_digit : char → N;
  (** [hashlib.sha256(value.encode('utf-8')).hexdigest()]. *)
  sha256_hexdigest : pystr → pystr
}.

(** [s.startswith(prefix)] *)
Fixpoint startswith (prefix s : pystr) : bool :=
  match prefix, s with
  | [], _ => true
  | _ :: _, [] => false
  | a :: prefix', b :: s' => (a =? b)%N && startswith prefix' s'
  end.

(** [needle in hay] on strings: [needle] starts at some position of
    [hay]. *)
Fixpoint str_in (needle hay : pystr) : bool :=
  startswith needle hay ||
  match hay with
  | [] => false
  | _ :: hay' => str_in needle hay'
  end.

(** [s[::-1]] *)
Definition str_reversed (s : pystr) : pystr := rev s.

(** [a == b] on strings. *)
Definition str_eq (a b : pystr) : bool := bool_decide (a = b).

Section StrMethods.
Context `{PyRuntime}.

(** [s.strip()]: whitespace removed at both ends. *)
Fixpoint lstrip (s : pystr) : pystr :=
  match s with
  | c :: s' => if chr_isspace c then lstrip s' else s
  | [] => []
  end.

Definition rstrip (s : pystr) : pystr := rev (lstrip (rev s)).

Definition strip (s : pystr) : pystr := rstrip (lstrip s).

(** [s.split()]: the maximal runs of non-whitespace characters.  [cur]
    is the token being read, in reverse. *)
Fixpoint split_from (cur : pystr) (s : pystr) : list pystr :=
  match s with
  | [] => match cur with [] => [] | _ => [rev cur] end
  | c :: s' =>
      if chr_isspace c
      then match cur with
           | [] => split_from [] s'
           | _ => rev cur :: split_from [] s'
           end
      else split_from (c :: cur) s'
  end.

Definition split (s : pystr) : list pystr := split_from [] s.

(** [int(s)] on a non-empty string of decimal digits, the only strings
    the parser passes to it; [None] is [ValueError], which the model
    also returns for the signed, padded or underscored spellings that
    Python would accept.  A Python [int] has no bound, so the value is
    exact; the cap that an interpreter may put on the number of digits of
    a conversion ([sys.set_int_max_str_digits]) is a setting of the
    deployment and is not modelled. *)
Definition py_int (s : pystr) : option Z :=
  match s with
  | [] => None
  | _ =>
      if forallb chr_isdecimal s
      then Some (fold_left (λ acc c, 10 * acc + Z.of_N (chr_digit c)) s 0)
      else None
  end.
End StrMethods.

(** ** The analyzer: [app/services/analyzer.py] *)

Record Properties := {
  prop_length : Z;
  prop_is_palindrome : bool;
  prop_unique_characters : Z;
  prop_word_count : Z;
  prop_sha256_hash : pystr;
  prop_character_frequency_map : gmap N Z
}.

Record StringRecord := {
  rec_id : pystr;
  rec_value : pystr;
  rec_properties : Properties;
  rec_created_at : pystr
}.

(** [freq[char] = freq.get(char, 0) + 1] for every [char] of [value]. *)
Definition character_frequency_map (value : pystr) : gmap N Z :=
  fold_left (λ freq char, <[char := default 0 (freq !! char) + 1]> freq)
            value ∅.

Section Analyzer.
Context `{PyRuntime}.

Definition sha256_hash (value : pystr) : pystr := sha256_hexdigest value.

Definition normalized_value (value : pystr) : pystr := str_lower value.

Definition cleaned_value (value : pystr) : pystr :=
  filter (λ char, chr_isalnum char = true) (normalized_value value).

(** [now] is the reading of [datetime.now(timezone.utc).isoformat()]. *)
Definition analyze_string (now : pystr) (value : pystr) : StringRecord :=
  let _id := sha256_hash value in
  let length_ := Z.of_nat (length value) in
  let is_palindrome :=
    str_eq (cleaned_value value) (str_reversed (cleaned_value value)) in
  let unique_characters :=
    Z.of_nat (size (list_to_set value : gset N)) in
  let word_count := Z.of_nat (length (split value)) in
  let freq_map := character_frequency_map value in
  let created_at := now in
  let properties :=
    {| prop_length := length_;
       prop_is_palindrome := is_palindrome;
       prop_unique_characters := unique_characters;
       prop_word_count := word_count;
       prop_sha256_hash := _id;
       prop_character_frequency_map := freq_map |} in
  {| rec_id := _id;
     rec_value := value;
     rec_properties := properties;
     rec_created_at := created_at |}.
End Analyzer.

(** ** The store: [app/models/file_storage.py] *)

(** The content of [data/strings.json]: [None] when the file is missing
    or does not decode, otherwise the JSON object it holds ([json.load]
    gives back what [json.dump] wrote). *)
Abbreviation FileStorage := (option (gmap pystr StringRecord)).

Definition all (storage : FileStorage) : gmap pystr StringRecord :=
  match storage with
  | Some data => data
  | None => ∅
  end.

Definition save_object (storage : FileStorage) (key : pystr)
    (obj : StringRecord) : FileStorage :=
  let data := all storage in
  Some (<[key := obj]> data).

Definition get_object (storage : FileStorage) (key : pystr)
    : option StringRecord :=
  all storage !! key.

Definition exists_ (storage : FileStorage) (key : pystr) : bool :=
  bool_decide (is_Some (all storage !! key)).

Definition delete_object (storage : FileStorage) (key : pystr)
    : FileStorage :=
  let data := all storage in
  if bool_decide (is_Some (data !! key))
  then Some (delete key data)
  else storage.

(** ** Exceptions *)

Inductive exn := ValueError | TypeError.

(** A computation that returns or raises. *)
Inductive result (A : Type) : Type :=
| Return (a : A)
| Raise (e : exn).
Arguments Return {A} a.
Arguments Raise {A} e.

#[global] Instance result_ret : MRet result := λ A a, Return a.
#[global] Instance result_bind : MBind result := λ A B k m,
  match m with
  | Return a => k a
  | Raise e => Raise e
  end.

(** ** Regular expressions: the fragment of [re] the parser uses *)

Inductive regex : Type :=
| Lit (s : pystr)             (** a literal string *)
| OneOf (cls : char → bool)   (** one character of a class: [[a-z]] *)
| Plus (cls : char → bool)    (** [cls+], greedy: [\d+], [\s+] *)
| Cat (r1 r2 : regex)         (** [r1 r2] *)
| Alt (r1 r2 : regex)         (** [r1|r2], left first *)
| Opt (r : regex)             (** [(?:r)?], greedy *)
| Group (r : regex).          (** [(r)], the capture group *)

(** The backtracking matcher, in continuation-passing style: [k] receives
    the rest of the input and the text of group 1, if it has matched. *)
Section Matcher.
Context {R : Type}.

Fixpoint plus_greedy (cls : char → bool) (s : pystr)
    (k : pystr → option R) : option R :=
  match s with
  | c :: s' =>
      if cls c
      then match plus_greedy cls s' k with
           | Some m => Some m
           | None => k s'
           end
      else None
  | [] => None
  end.

Fixpoint re_match (r : regex) (s : pystr) (g : option pystr)
    (k : pystr → option pystr → option R) : option R :=
  match r with
  | Lit l => if startswith l s then k (drop (length l) s) g else None
  | OneOf cls =>
      match s with
      | c :: s' => if cls c then k s' g else None
      | [] => None
      end
  | Plus cls => plus_greedy cls s (λ s', k s' g)
  | Cat r1 r2 => re_match r1 s g (λ s' g', re_match r2 s' g' k)
  | Alt r1 r2 =>
      match re_match r1 s g k with
      | Some m => Some m
      | None => re_match r2 s g k
      end
  | Opt r1 =>
      match re_match r1 s g k with
      | Some m => Some m
      | None => k s g
      end
  | Group r1 =>
      re_match r1 s g
        (λ s' _, k s' (Some (take (length s - length s') s)))
  end.
End Matcher.

(** A match object; [group1] is [m.group(1)]. *)
Record Match := { group1 : option pystr }.

(** [re.search(r, s)]: the match at the leftmost position that has one. *)
Fixpoint re_search (r : regex) (s : pystr) : option Match :=
  match re_match r s None (λ _ g, Some {| group1 := g |}) with
  | Some m => Some m
  | None =>
      match s with
      | [] => None
      | _ :: s' => re_search r s'
      end
  end.

(** ** The translator: [app/utils/nlp_parser.py] *)

(** A value of the [filters] dictionary. *)
Inductive filter_value :=
| VNone
| VBool (b : bool)
| VInt (n : Z)
| VStr (s : pystr).

Abbreviation Filters := (gmap string filter_value).

Definition chr_is_a_z (c : char) : bool := ((97 <=? c) && (c <=? 122))%N.

Section Translator.
Context `{PyRuntime}.

(** [longer than (\d+)] *)
Definition length_re : regex :=
  Cat (Lit (u "longer than ")) (Group (Plus chr_isdecimal)).

(** [contain(?:s|ing)?\s+(?:the\s+)?(?:letter\s+)?([a-z])] *)
Definition letter_re : regex :=
  Cat (Lit (u "contain"))
 (Cat (Opt (Alt (Lit (u "s")) (Lit (u "ing"))))
 (Cat (Plus chr_isspace)
 (Cat (Opt (Cat (Lit (u "the")) (Plus chr_isspace)))
 (Cat (Opt (Cat (Lit (u "letter")) (Plus chr_isspace)))
      (Group (OneOf chr_is_a_z)))))).

(** [int(m.group(1))]: a group that did not take part is Python's
    [None], on which [int] raises [TypeError]. *)
Definition int_group1 (m : Match) : result Z :=
  match group1 m with
  | Some s => match py_int s with
              | Some n => Return n
              | None => Raise ValueError
              end
  | None => Raise TypeError
  end.

(** [m.group(1)] as a dictionary value. *)
Definition group1_value (m : Match) : filter_value :=
  match group1 m with
  | Some s => VStr s
  | None => VNone
  end.

Definition parse_natural_language (query : pystr) : result Filters :=
  let query_lower := strip (str_lower query) in
  let filters : Filters := ∅ in
  (* Palindrome detection *)
  let filters :=
    if existsb (λ word, str_in word query_lower)
               [u "palindrom"; u "palindromic"]
    then <["is_palindrome" := VBool true]> filters
    else filters in
  (* Word count detection *)
  let filters :=
    if str_in (u "single word") query_lower
       || str_in (u "one word") query_lower
    then <["word_count" := VInt 1]> filters
    else if str_in (u "two word") query_lower
    then <["word_count" := VInt 2]> filters
    else filters in
  (* Length detection *)
  let length_match := re_search length_re query_lower in
  filters ←
    match length_match with
    | Some m =>
        n ← int_group1 m;
        mret (<["min_length" := VInt (n + 1)]> filters)
    | None => mret filters
    end;
  (* Character detection *)
  let letter_match := re_search letter_re query_lower in
  let filters :=
    match letter_match with
    | Some m => <["contains_character" := group1_value m]> filters
    | None => filters
    end in
  (* Special case: "first vowel" *)
  let filters :=
    if str_in (u "first vowel") query_lower
    then <["contains_character" := VStr (u "a")]> filters
    else filters in
  mret filters.
End Translator.

(** ** The routes: [app/api.py] *)

(** What a route hands back: a body, or [raise HTTPException]. *)
Inductive response (A : Type) : Type :=
| Ok (body : A)
| HTTPException (status_code : Z) (detail : string).
Arguments Ok {A} body.
Arguments HTTPException {A} status_code detail.

(** [x is not None and test(x)] *)
Definition is_not_None_and {A} (x : option A) (test : A → bool) : bool :=
  match x with
  | Some a => test a
  | None => false
  end.

(** The loop of [get_all_strings] over [all_strings]; a record that
    fails a filter is skipped ([continue]), the others are appended. *)
Definition filter_strings (all_strings : list StringRecord)
    (is_palindrome : option bool) (min_length max_length : option Z)
    (word_count : option Z) (contains_character : option pystr)
    : list StringRecord :=
  fold_left
    (λ filtered_strings string_obj,
       let props := rec_properties string_obj in
       if is_not_None_and is_palindrome
            (λ x, negb (eqb (prop_is_palindrome props) x))
       then filtered_strings
       else if is_not_None_and min_length (λ x, prop_length props <? x)
       then filtered_strings
       else if is_not_None_and max_length (λ x, prop_length props >? x)
       then filtered_strings
       else if is_not_None_and word_count
                 (λ x, negb (prop_word_count props =? x))
       then filtered_strings
       else if is_not_None_and contains_character
                 (λ x, negb (str_in x (rec_value string_obj)))
       then filtered_strings
       else filtered_strings ++ [string_obj])
    all_strings [].

Record ListBody := {
  data : list StringRecord;
  count : Z;
  filters_applied : Filters
}.

(** [list(storage.all().values())]; the records come in the order of the
    map, and the routes filter them in whatever order they come. *)
Definition all_values (storage : FileStorage) : list StringRecord :=
  (map_to_list (all storage)).*2.

Definition get_all_strings (storage : FileStorage)
    (is_palindrome : option bool) (min_length max_length : option Z)
    (word_count : option Z) (contains_character : option pystr)
    : response ListBody :=
  let all_strings := all_values storage in
  let filtered_strings :=
    filter_strings all_strings is_palindrome min_length max_length
                   word_count contains_character in
  let set_if {A} (key : string) (x : option A) (v : A → filter_value)
        (d : Filters) : Filters :=
    match x with Some a => <[key := v a]> d | None => d end in
  let filters_applied : Filters := ∅ in
  let filters_applied :=
    set_if "is_palindrome" is_palindrome VBool filters_applied in
  let filters_applied :=
    set_if "min_length" min_length VInt filters_applied in
  let filters_applied :=
    set_if "max_length" max_length VInt filters_applied in
  let filters_applied :=
    set_if "word_count" word_count VInt filters_applied in
  let filters_applied :=
    set_if "contains_character" contains_character VStr filters_applied in
  Ok {| data := filtered_strings;
        count := Z.of_nat (length filtered_strings);
        filters_applied := filters_applied |}.

(** Python's comparisons on the values a filter may hold. *)
Definition py_bool_ne (b : bool) (v : filter_value) : bool :=
  match v with
  | VBool b' => negb (eqb b b')
  | VInt n => negb (Z.b2z b =? n)
  | VNone | VStr _ => true
  end.

Definition py_int_ne (n : Z) (v : filter_value) : bool :=
  match v with
  | VBool b => negb (n =? Z.b2z b)
  | VInt m => negb (n =? m)
  | VNone | VStr _ => true
  end.

Definition py_int_lt (n : Z) (v : filter_value) : result bool :=
  match v with
  | VBool b => Return (n <? Z.b2z b)
  | VInt m => Return (n <? m)
  | VNone | VStr _ => Raise TypeError
  end.

Definition py_not_in (v : filter_value) (s : pystr) : result bool :=
  match v with
  | VStr x => Return (negb (str_in x s))
  | _ => Raise TypeError
  end.

(** One turn of the inner loop of [filter_by_natural_language]: does the
    entry rule the record out? *)
Definition entry_rejects (string_obj : StringRecord)
    (entry : string * filter_value) : result bool :=
  let props := rec_properties string_obj in
  let '(filter_key, filter_value) := entry in
  if String.eqb filter_key "is_palindrome"
     && py_bool_ne (prop_is_palindrome props) filter_value
  then Return true
  else if String.eqb filter_key "word_count"
          && py_int_ne (prop_word_count props) filter_value
  then Return true
  else
    match (if String.eqb filter_key "min_length"
           then py_int_lt (prop_length props) filter_value
           else Return false) with
    | Raise e => Raise e
    | Return true => Return true
    | Return false =>
        if String.eqb filter_key "contains_character"
        then py_not_in filter_value (rec_value string_obj)
        else Return false
    end.

(** The inner loop: [match] stays true unless an entry rejects. *)
Fixpoint record_matches (string_obj : StringRecord)
    (items : list (string * filter_value)) : result bool :=
  match items with
  | [] => Return true
  | entry :: items' =>
      match entry_rejects string_obj entry with
      | Raise e => Raise e
      | Return true => Return false
      | Return false => record_matches string_obj items'
      end
  end.

(** The outer loop. *)
Fixpoint nl_filter_strings (all_strings : list StringRecord)
    (parsed_filters : Filters) : result (list StringRecord) :=
  match all_strings with
  | [] => Return []
  | string_obj :: rest =>
      matched ← record_matches string_obj (map_to_list parsed_filters);
      filtered ← nl_filter_strings rest parsed_filters;
      Return (if matched : bool then string_obj :: filtered else filtered)
  end.

Record NlBody := {
  nl_data : list StringRecord;
  nl_count : Z;
  original : pystr;
  parsed_filters : Filters
}.

Section Routes.
Context `{PyRuntime}.

Definition create_string (now : pystr) (storage : FileStorage)
    (value : pystr) : response StringRecord * FileStorage :=
  let string_id := sha256_hash value in
  if exists_ storage string_id
  then (HTTPException 409 "String already exists in the system", storage)
  else
    let analyzed_data := analyze_string now value in
    let storage := save_object storage string_id analyzed_data in
    (Ok analyzed_data, storage).

Definition get_string (storage : FileStorage) (string_value : pystr)
    : response (option StringRecord) :=
  let string_id := sha256_hash string_value in
  if negb (exists_ storage string_id)
  then HTTPException 404 "String does not exist in the system"
  else Ok (get_object storage string_id).

Definition delete_string (storage : FileStorage) (string_value : pystr)
    : response unit * FileStorage :=
  let string_id := sha256_hash string_value in
  if negb (exists_ storage string_id)
  then (HTTPException 404 "String does not exist in the system", storage)
  else (Ok (), delete_object storage string_id).

Definition filter_by_natural_language (storage : FileStorage)
    (query : pystr) : response NlBody :=
  let body :=
    parsed ← parse_natural_language query;
    let all_strings := all_values storage in
    filtered_strings ← nl_filter_strings all_strings parsed;
    mret {| nl_data := filtered_strings;
            nl_count := Z.of_nat (length filtered_strings);
            original := query;
            parsed_filters := parsed |} in
  match body with
  | Return b => Ok b
  | Raise ValueError =>
      HTTPException 422 "Query parsed but resulted in conflicting filters"
  | Raise _ => HTTPException 400 "Unable to parse natural language query"
  end.
End Routes.

(** *** The handler of validation errors *)

(** An element of an error's location: a field name or an index. *)
Inductive loc_item :=
| LocStr (s : string)
| LocInt (n : Z).

(** An entry of [exc.errors()], as far as the handler reads it:
    [error.get("type")] and [error.get("loc", [])]. *)
Record ValidationError := {
  err_type : option string;
  err_loc : list loc_item
}.

Record JSONResponse := {
  resp_status_code : Z;
  resp_detail : string
}.

Definition dquote : string := String (ascii_of_nat 34) EmptyString.

(** [key in error_loc] *)
Definition loc_has (key : string) (error_loc : list loc_item) : bool :=
  existsb (λ item, match item with
                   | LocStr s => String.eqb s key
                   | LocInt _ => false
                   end) error_loc.

(** [error_type == t] *)
Definition type_is (error_type : option string) (t : string) : bool :=
  match error_type with
  | Some t' => String.eqb t' t
  | None => false
  end.

Definition missing_value_response : JSONResponse :=
  {| resp_status_code := 400;
     resp_detail := "Invalid request body or missing " +:+ dquote
                    +:+ "value" +:+ dquote +:+ " field" |}.

Definition invalid_type_response : JSONResponse :=
  {| resp_status_code := 422;
     resp_detail := "Invalid data type for " +:+ dquote +:+ "value"
                    +:+ dquote +:+ " (must be string)" |}.

(** The loop over [errors] returns at the first error about the field
    [value] whose type it knows; the default follows the loop. *)
Fixpoint validation_exception_handler (errors : list ValidationError)
    : JSONResponse :=
  match errors with
  | [] => missing_value_response
  | error :: errors' =>
      let error_type := err_type error in
      let error_loc := err_loc error in
      if loc_has "value" error_loc
      then if type_is error_type "missing"
           then missing_value_response
           else if existsb (type_is error_type) ["string_type"; "str_type"]
           then invalid_type_response
           else validation_exception_handler errors'
      else validation_exception_handler errors'
  end.

(** ** A runtime to compute with *)

(** [value.encode('utf-8')] for code points that are Unicode scalar
    values (Python raises on lone surrogates, which no decoded request
    contains). *)
Definition utf8_encode_char (c : N) : list N :=
  (if c <? 0x80 then [c]
   else if c <? 0x800 then
     [N.lor 0xC0 (N.shiftr c 6); N.lor 0x80 (N.land c 0x3F)]
   else if c <? 0x10000 then
     [N.lor 0xE0 (N.shiftr c 12);
      N.lor 0x80 (N.land (N.shiftr c 6) 0x3F);
      N.lor 0x80 (N.land c 0x3F)]
   else
     [N.lor 0xF0 (N.shiftr c 18);
      N.lor 0x80 (N.land (N.shiftr c 12) 0x3F);
      N.lor 0x80 (N.land (N.shiftr c 6) 0x3F);
      N.lor 0x80 (N.land c 0x3F)])%N.

Definition utf8_encode (s : pystr) : list N :=
  flat_map utf8_encode_char s.

(** SHA-256 (FIPS 180-4) on a list of bytes, words as [N] below [2^32]. *)
Module SHA256.
Local Open Scope N_scope.

Definition w32 (x : N) : N := x mod 0x100000000.
Definition add32 (a b : N) : N := w32 (a + b).
Definition rotr (n x : N) : N :=
  N.lor (N.shiftr x n) (w32 (N.shiftl x (32 - n))).
Definition shr (n x : N) : N := N.shiftr x n.
Definition not32 (x : N) : N := N.lxor x 0xFFFFFFFF.

Definition Ch (x y z : N) : N :=
  N.lxor (N.land x y) (N.land (not32 x) z).
Definition Maj (x y z : N) : N :=
  N.lxor (N.lxor (N.land x y) (N.land x z)) (N.land y z).
Definition Sigma0 (x : N) : N :=
  N.lxor (N.lxor (rotr 2 x) (rotr 13 x)) (rotr 22 x).
Definition Sigma1 (x : N) : N :=
  N.lxor (N.lxor (rotr 6 x) (rotr 11 x)) (rotr 25 x).
Definition sigma0 (x : N) : N :=
  N.lxor (N.lxor (rotr 7 x) (rotr 18 x)) (shr 3 x).
Definition sigma1 (x : N) : N :=
  N.lxor (N.lxor (rotr 17 x) (rotr 19 x)) (shr 10 x).

(** The round constants and the initial hash value are the first 32
    bits of the fractional parts of the cube roots, respectively the
    square roots, of the first primes. *)
Definition is_prime (n : nat) : bool :=
  forallb (λ d, negb (n mod d =? 0)%nat) (seq 2 (n - 2)).

Definition primes (n : nat) : list N :=
  map N.of_nat (take n (filter (λ p, is_prime p = true) (seq 2 310))).

(** The largest [r] below [2^bits] with [r^3 <= x], one bit at a time. *)
Fixpoint cube_root (bits : nat) (x r : N) : N :=
  match bits with
  | O => r
  | S bits' =>
      let r' := r + N.shiftl 1 (N.of_nat bits') in
      cube_root bits' x (if r' * r' * r' <=? x then r' else r)
  end.

Definition K : list N :=
  map (λ p, w32 (cube_root 36 (N.shiftl p 96) 0)) (primes 64).

Definition H0 : list N :=
  map (λ p, w32 (N.sqrt (N.shiftl p 64))) (primes 8).

(** Padding: a 1 bit, zeros, and the bit length on 64 bits. *)
Definition be_bytes (width : nat) (x : N) : list N :=
  map (λ i, N.land (N.shiftr x (8 * N.of_nat i)) 0xFF)
      (rev (seq 0 width)).

Definition pad (msg : list N) : list N :=
  let len := N.of_nat (length msg) in
  let zeros := N.to_nat ((119 - len mod 64) mod 64) in
  msg ++ [0x80] ++ repeat 0 zeros ++ be_bytes 8 (8 * len).

Fixpoint be_word (bytes : list N) (acc : N) : N :=
  match bytes with
  | [] => acc
  | b :: bytes' => be_word bytes' (N.lor (N.shiftl acc 8) b)
  end.

(** The big-endian words of [n] groups of four bytes. *)
Fixpoint words (n : nat) (bytes : list N) : list N :=
  match n with
  | O => []
  | S n' => be_word (take 4 bytes) 0 :: words n' (drop 4 bytes)
  end.

(** The message schedule: [w] holds [W_0 .. W_(t-1)]. *)
Fixpoint schedule (n : nat) (w : list N) : list N :=
  match n with
  | O => w
  | S n' =>
      let t := length w in
      let at_ i := nth (t - i) w 0 in
      schedule n'
        (w ++ [add32 (add32 (sigma1 (at_ 2%nat)) (at_ 7%nat))
                     (add32 (sigma0 (at_ 15%nat)) (at_ 16%nat))])
  end.

Definition round (st : list N) (kw : N * N) : list N :=
  match st with
  | [a; b; c; d; e; f; g; h] =>
      let t1 :=
        add32 (add32 (add32 h (Sigma1 e)) (add32 (Ch e f g) kw.1)) kw.2 in
      let t2 := add32 (Sigma0 a) (Maj a b c) in
      [add32 t1 t2; a; b; c; add32 d t1; e; f; g]
  | _ => st
  end.

Definition compress (h : list N) (block : list N) : list N :=
  let w := schedule 48 (words 16 block) in
  zip_with add32 h (fold_left round (zip K w) h).

Fixpoint blocks (n : nat) (h : list N) (bytes : list N) : list N :=
  match n with
  | O => h
  | S n' => blocks n' (compress h (take 64 bytes)) (drop 64 bytes)
  end.

Definition digest (msg : list N) : list N :=
  let padded := pad msg in
  flat_map (be_bytes 4) (blocks (length padded / 64) H0 padded).

Definition hex_digit (x : N) : N :=
  if x <? 10 then 48 + x else 87 + x.

Definition hexdigest (msg : list N) : pystr :=
  flat_map (λ b, [hex_digit (N.shiftr b 4); hex_digit (N.land b 0xF)])
           (digest msg).
End SHA256.

Definition ascii_lower (c : N) : N :=
  (if (65 <=? c) && (c <=? 90) then c + 32 else c)%N.

Definition ascii_isalnum (c : N) : bool :=
  ((48 <=? c) && (c <=? 57) || (65 <=? c) && (c <=? 90)
   || (97 <=? c) && (c <=? 122))%N.

(** The characters Python treats as whitespace. *)
Definition unicode_isspace (c : N) : bool :=
  ((9 <=? c) && (c <=? 13) || (28 <=? c) && (c <=? 32)
   || (c =? 0x85) || (c =? 0xA0) || (c =? 0x1680)
   || (0x2000 <=? c) && (c <=? 0x200A)
   || (c =? 0x2028) || (c =? 0x2029) || (c =? 0x202F)
   || (c =? 0x205F) || (c =? 0x3000))%N.

Definition ascii_isdecimal (c : N) : bool := ((48 <=? c) && (c <=? 57))%N.

(** A runtime that agrees with CPython on every string whose code points
    are below 128; above, letters have no case and no digit is known. *)
#[global] Instance ascii_runtime : PyRuntime := {|
  str_lower := map ascii_lower;
  str_lower_nil := eq_refl;
  chr_isalnum := ascii_isalnum;
  chr_isspace := unicode_isspace;
  chr_isdecimal := ascii_isdecimal;
  chr_digit := λ c, (c - 48)%N;
  sha256_hexdigest := λ s, SHA256.hexdigest (utf8_encode s)
|}.

(** * The vocabulary of the specification *)

(** ** Frequencies *)

(** Sum of the values of a map. *)
Definition sum_values (m : gmap N Z) : Z :=
  map_fold (λ _ v acc, v + acc) 0 m.

(** One turn of the loop of [character_frequency_map]. *)
Definition count_char (freq : gmap N Z) (char : N) : gmap N Z :=
  <[char := default 0 (freq !! char) + 1]> freq.

(** ** Filter predicates *)

(** The filter criteria of a request: every field is optional. *)
Record FilterPredicate := {
  f_is_palindrome : option bool;
  f_min_length : option Z;
  f_max_length : option Z;
  f_word_count : option Z;
  f_contains_character : option pystr
}.

Definition empty_predicate : FilterPredicate :=
  {| f_is_palindrome := None; f_min_length := None; f_max_length := None;
     f_word_count := None; f_contains_character := None |}.

(** [holds o P]: the condition [P] of a field, when the field is present. *)
Definition holds {A} (o : option A) (P : A → Prop) : Prop :=
  ∀ a, o = Some a → P a.

(** A record matches a predicate when every present field holds. *)
Definition matches (r : StringRecord) (p : FilterPredicate) : Prop :=
  holds (f_is_palindrome p)
        (λ b, prop_is_palindrome (rec_properties r) = b)
  ∧ holds (f_min_length p) (λ n, n ≤ prop_length (rec_properties r))
  ∧ holds (f_max_length p) (λ n, prop_length (rec_properties r) ≤ n)
  ∧ holds (f_word_count p) (λ n, prop_word_count (rec_properties r) = n)
  ∧ holds (f_contains_character p)
          (λ c, ∃ pre post, rec_value r = pre ++ c ++ post).

(** ** The language of a regular expression *)

(** [matches_re r s g g']: the expression [r] matches exactly the string
    [s]; group 1 holds [g] before and [g'] after. *)
Inductive matches_re : regex → pystr → option pystr → option pystr → Prop :=
| M_Lit l g :
    matches_re (Lit l) l g g
| M_OneOf cls c g :
    cls c = true → matches_re (OneOf cls) [c] g g
| M_Plus cls s g :
    s ≠ [] → Forall (λ c, cls c = true) s → matches_re (Plus cls) s g g
| M_Cat r1 r2 s1 s2 g g1 g2 :
    matches_re r1 s1 g g1 → matches_re r2 s2 g1 g2 →
    matches_re (Cat r1 r2) (s1 ++ s2) g g2
| M_AltL r1 r2 s g g' :
    matches_re r1 s g g' → matches_re (Alt r1 r2) s g g'
| M_AltR r1 r2 s g g' :
    matches_re r2 s g g' → matches_re (Alt r1 r2) s g g'
| M_OptSome r s g g' :
    matches_re r s g g' → matches_re (Opt r) s g g'
| M_OptNone r g :
    matches_re (Opt r) [] g g
| M_Group r s g g' :
    matches_re r s g g' → matches_re (Group r) s g (Some s).

(** ** The predicate a dictionary of filters stands for *)

(** The fields the natural-language route reads from [parsed_filters];
    it has no branch for [max_length]. *)
Definition predicate_of (filters : Filters) : FilterPredicate :=
  {| f_is_palindrome :=
       match filters !! "is_palindrome" with
       | Some (VBool b) => Some b
       | _ => None
       end;
     f_min_length :=
       match filters !! "min_length" with
       | Some (VInt n) => Some n
       | _ => None
       end;
     f_max_length := None;
     f_word_count :=
       match filters !! "word_count" with
       | Some (VInt n) => Some n
       | _ => None
       end;
     f_contains_character :=
       match filters !! "contains_character" with
       | Some (VStr c) => Some c
       | _ => None
       end |}.

(** The four keys the route reads hold values of the type it expects. *)
Definition well_typed (filters : Filters) : Prop :=
  (∀ v, filters !! "is_palindrome" = Some v → ∃ b, v = VBool b)
  ∧ (∀ v, filters !! "word_count" = Some v → ∃ n, v = VInt n)
  ∧ (∀ v, filters !! "min_length" = Some v → ∃ n, v = VInt n)
  ∧ (∀ v, filters !! "contains_character" = Some v → ∃ c, v = VStr c).

(** Whether an entry of the right type rules a record out. *)
Definition entry_fails (r : StringRecord) (key : string)
    (v : filter_value) : bool :=
  match v with
  | VNone => false
  | VBool b =>
      String.eqb key "is_palindrome"
      && negb (eqb (prop_is_palindrome (rec_properties r)) b)
  | VInt n =>
      String.eqb key "word_count"
      && negb (prop_word_count (rec_properties r) =? n)
      || String.eqb key "min_length"
         && (prop_length (rec_properties r) <? n)
  | VStr c =>
      String.eqb key "contains_character" && negb (str_in c (rec_value r))
  end.

(** ** Validation errors *)

(** The error is about the field [value]. *)
Definition about_value (e : ValidationError) : Prop :=
  LocStr "value" ∈ err_loc e.

Definition missing_error (e : ValidationError) : Prop :=
  err_type e = Some "missing".

Definition string_type_error (e : ValidationError) : Prop :=
  err_type e = Some "string_type" ∨ err_type e = Some "str_type".

(** An error at which the handler answers. *)
Definition decisive (e : ValidationError) : Prop :=
  about_value e ∧ (missing_error e ∨ string_type_error e).

Section Vocabulary.
Context `{PyRuntime}.

(** ** Stores *)

(** Every record sits under the fingerprint of its string and is the
    analysis of that string, made at the time it records. *)
Definition well_formed (storage : FileStorage) : Prop :=
  ∀ key r, all storage !! key = Some r →
    key = sha256_hash (rec_value r)
    ∧ r = analyze_string (rec_created_at r) (rec_value r).

(** ** Words *)

Definition is_space (c : N) : Prop := chr_isspace c = true.
Definition non_space (c : N) : Prop := chr_isspace c = false.

(** [tokenization s toks]: [s] is the tokens [toks], each a non-empty
    run of non-whitespace characters, separated by non-empty runs of
    whitespace and surrounded by possibly empty ones. *)
Inductive tokenization : pystr → list pystr → Prop :=
| tok_none ws :
    Forall is_space ws → tokenization ws []
| tok_last ws t :
    Forall is_space ws → t ≠ [] → Forall non_space t →
    tokenization (ws ++ t) [t]
| tok_more ws t sep rest toks :
    Forall is_space ws → t ≠ [] → Forall non_space t → is_space sep →
    tokenization rest toks →
    tokenization (ws ++ t ++ sep :: rest) (t :: toks).

(** ** Phrases of a query *)

Definition is_digit (c : N) : Prop := chr_isdecimal c = true.

(** [ds], followed by [post], is a whole number: a non-empty run of
    digits that no further digit continues. *)
Definition whole_number (ds post : pystr) : Prop :=
  ds ≠ [] ∧ Forall is_digit ds
  ∧ ∀ c post', post = c :: post' → chr_isdecimal c = false.

(** No phrase "longer than <digit>" of [ql] starts before position
    [length pre]. *)
Definition first_longer_than (ql pre : pystr) : Prop :=
  ∀ pre1 d rest,
    ql = pre1 ++ u "longer than " ++ d :: rest → is_digit d →
    (length pre ≤ length pre1)%nat.

(** The rules of the translator, one at a time. *)

Definition palindrome_rule (ql : pystr) (filters : Filters) : Filters :=
  if existsb (λ word, str_in word ql) [u "palindrom"; u "palindromic"]
  then <["is_palindrome" := VBool true]> filters
  else filters.

Definition word_count_rule (ql : pystr) (filters : Filters) : Filters :=
  if str_in (u "single word") ql || str_in (u "one word") ql
  then <["word_count" := VInt 1]> filters
  else if str_in (u "two word") ql
  then <["word_count" := VInt 2]> filters
  else filters.

Definition letter_rule (ql : pystr) (filters : Filters) : Filters :=
  match re_search letter_re ql with
  | Some m => <["contains_character" := group1_value m]> filters
  | None => filters
  end.

Definition first_vowel_rule (ql : pystr) (filters : Filters) : Filters :=
  if str_in (u "first vowel") ql
  then <["contains_character" := VStr (u "a")]> filters
  else filters.

(** What the translator stores under [key] for the lower-cased, trimmed
    query [ql], rule by rule. *)
Definition translated (ql : pystr) (key : string) : option filter_value :=
  if String.eqb key "is_palindrome" then
    if str_in (u "palindrom") ql then Some (VBool true) else None
  else if String.eqb key "word_count" then
    if str_in (u "single word") ql || str_in (u "one word") ql
    then Some (VInt 1)
    else if str_in (u "two word") ql then Some (VInt 2) else None
  else if String.eqb key "min_length" then
    match re_search length_re ql with
    | Some m => match int_group1 m with
                | Return n => Some (VInt (n + 1))
                | Raise _ => None
                end
    | None => None
    end
  else if String.eqb key "contains_character" then
    if str_in (u "first vowel") ql then Some (VStr (u "a"))
    else match re_search letter_re ql with
         | Some m => Some (group1_value m)
         | None => None
         end
  else None.

(** [ql] holds none of the phrases the translator knows: neither a
    keyword nor a text that one of the two patterns matches. *)
Definition no_phrase (ql : pystr) : Prop :=
  (∀ phrase,
     phrase ∈ [u "palindrom"; u "single word"; u "one word"; u "two word";
               u "first vowel"] →
     ∀ pre post, ql ≠ pre ++ phrase ++ post)
  ∧ (∀ r, r ∈ [length_re; letter_re] →
     ∀ pre mid post g, ql = pre ++ mid ++ post → ¬ matches_re r mid None g).

End Vocabulary.

(** * Properties *)

(** ** The runtime and SHA-256 on known inputs *)

Example sha_empty :
  sha256_hash (u "")
  = u "e3b0c44298fc1c149afbf4c8996fb92427ae41e4649b934ca495991b7852b855".
Proof. vm_compute. reflexivity. Qed.

Example sha_abc :
  sha256_hash (u "abc")
  = u "ba7816bf8f01cfea414140de5dae2223b00361a396177a9cb410ff61f20015ad".
Proof. vm_compute. reflexivity. Qed.

Example sha_two_blocks :
  sha256_hash (u "abcdbcdecdefdefgefghfghighijhijkijkljklmklmnlmnomnopnopq")
  = u "248d6a61d20638b8e5c026930c3e6039a33ce45964ff2167f6ecedd419db06c1".
Proof. vm_compute. reflexivity. Qed.

(** ** Substring search *)

Lemma startswith_spec (p s : pystr) :
  startswith p s = true ↔ ∃ post, s = p ++ post.
Proof.
  revert s. induction p as [|a p IH]; intros s; simpl.
  - split; [eauto | done].
  - destruct s as [|b s].
    + split; [done | intros [post Hp]; discriminate].
    + rewrite andb_true_iff, N.eqb_eq, IH. split.
      * intros [-> [post ->]]. eauto.
      * intros [post Hp]. injection Hp as -> ->. eauto.
Qed.

Lemma startswith_app (p s : pystr) : startswith p (p ++ s) = true.
Proof. apply startswith_spec. eauto. Qed.

Lemma startswith_drop (p s : pystr) :
  startswith p s = true → s = p ++ drop (length p) s.
Proof.
  intros [post ->]%startswith_spec. by rewrite drop_app_length.
Qed.

(** [needle in hay] holds exactly when [hay] splits around [needle]. *)
Lemma str_in_spec (needle hay : pystr) :
  str_in needle hay = true ↔ ∃ pre post, hay = pre ++ needle ++ post.
Proof.
  induction hay as [|c hay IH]; simpl.
  - rewrite orb_false_r, startswith_spec. split.
    + intros [post Hp]. exists [], post. done.
    + intros (pre & post & Hp). symmetry in Hp.
      apply app_eq_nil in Hp as [-> Hp].
      apply app_eq_nil in Hp as [-> ->]. by exists [].
  - rewrite orb_true_iff, startswith_spec, IH. split.
    + intros [[post Hp] | (pre & post & ->)].
      * exists [], post. done.
      * exists (c :: pre), post. done.
    + intros (pre & post & Hp). destruct pre as [|c' pre].
      * left. eauto.
      * right. injection Hp as -> ->. eauto.
Qed.

Lemma str_in_false (needle hay : pystr) :
  str_in needle hay = false ↔ ∀ pre post, hay ≠ pre ++ needle ++ post.
Proof.
  rewrite <- not_true_iff_false, str_in_spec. split.
  - intros Hno pre post Heq. apply Hno. eauto.
  - intros Hno (pre & post & Heq). by apply (Hno pre post).
Qed.

Lemma filter_none (f : N → bool) (l : list N) :
  (∀ c, c ∈ l → f c = false) → filter (λ c, f c = true) l = [].
Proof.
  induction l as [|c l IH]; intros Hall; [done |].
  rewrite filter_cons. destruct (decide (f c = true)) as [Hc|_].
  - rewrite Hall in Hc by left. discriminate.
  - apply IH. intros c' Hc'. apply Hall. by right.
Qed.

(** ** The analyzer *)

(** A string equals its reverse when its characters mirror each other. *)
Lemma palindrome_lookup (l : pystr) :
  l = rev l ↔
  ∀ i, (i < length l)%nat → l !! i = l !! (length l - S i)%nat.
Proof.
  replace (rev l) with (reverse l) by (unfold reverse; by rewrite rev_alt).
  split.
  - intros Heq i Hi. rewrite Heq at 1. by apply reverse_lookup.
  - intros Hmirror. apply list_eq. intros i.
    destruct (decide (i < length l)%nat) as [Hi|Hi].
    + rewrite reverse_lookup by done. by apply Hmirror.
    + rewrite !lookup_ge_None_2; [done | rewrite length_reverse; lia | lia].
Qed.

Section AnalyzerFacts.
Context `{PyRuntime}.

Lemma str_eq_true (a b : pystr) : str_eq a b = true ↔ a = b.
Proof. unfold str_eq. by rewrite bool_decide_eq_true. Qed.

(** C1. [is_palindrome] holds exactly when the lower-cased value, with
    every non-alphanumeric character discarded, equals its reverse, that
    is, reads the same from both ends; in particular it holds when
    nothing remains, as for the empty string and for a value whose
    lower-cased characters are all non-alphanumeric. *)
Theorem analyze_is_palindrome (now s : pystr) :
  let cleaned := filter (λ c, chr_isalnum c = true) (str_lower s) in
  let is_palindrome :=
    prop_is_palindrome (rec_properties (analyze_string now s)) in
  (is_palindrome = true ↔ cleaned = rev cleaned)
  ∧ (is_palindrome = true ↔
     ∀ i, (i < length cleaned)%nat →
          cleaned !! i = cleaned !! (length cleaned - S i)%nat)
  ∧ (cleaned = [] → is_palindrome = true)
  ∧ ((∀ c, c ∈ str_lower s → chr_isalnum c = false) →
     is_palindrome = true)
  ∧ (s = [] → is_palindrome = true).
Proof.
  intros cleaned is_palindrome.
  assert (Hiff : is_palindrome = true ↔ cleaned = rev cleaned).
  { unfold is_palindrome, analyze_string; simpl. apply str_eq_true. }
  assert (Hnil : cleaned = [] → is_palindrome = true).
  { intros Hc. apply Hiff. by rewrite Hc. }
  split; [exact Hiff |]. split; [by rewrite Hiff, palindrome_lookup |].
  split; [exact Hnil |]. split.
  - intros Hall. apply Hnil. by apply filter_none.
  - intros ->. apply Hnil. unfold cleaned. by rewrite str_lower_nil.
Qed.
End AnalyzerFacts.

Lemma analyze_is_palindrome_witness :
  prop_is_palindrome
    (rec_properties (analyze_string (u "2026-01-01T00:00:00+00:00")
                                    (u " ?! ,. "))) = true.
Proof.
  destruct (analyze_is_palindrome (u "2026-01-01T00:00:00+00:00")
                                  (u " ?! ,. ")) as (_ & _ & Hnil & _).
  apply Hnil. reflexivity.
Defined.

Example palindrome_racecar :
  prop_is_palindrome (rec_properties (analyze_string (u "") (u "racecar")))
  = true.
Proof. reflexivity. Qed.

Example palindrome_panama :
  prop_is_palindrome
    (rec_properties (analyze_string (u "") (u "A man a plan a canal Panama")))
  = true.
Proof. reflexivity. Qed.

Example palindrome_not :
  prop_is_palindrome
    (rec_properties (analyze_string (u "") (u "not a palindrome")))
  = false.
Proof. reflexivity. Qed.

(** *** Words *)

Section Words.
Context `{PyRuntime}.

Lemma split_from_spaces (ws s : pystr) :
  Forall is_space ws → split_from [] (ws ++ s) = split_from [] s.
Proof.
  induction 1 as [|c ws Hc _ IH]; [done |].
  simpl. by rewrite Hc.
Qed.

Lemma split_from_token (t cur s : pystr) :
  Forall non_space t → split_from cur (t ++ s) = split_from (rev t ++ cur) s.
Proof.
  intros Ht. revert cur. induction Ht as [|c t Hc _ IH]; intros cur; [done |].
  simpl. rewrite Hc, IH. by rewrite <- app_assoc.
Qed.

Lemma split_from_stop (t : pystr) (s : pystr) :
  t ≠ [] →
  split_from (rev t) s =
    match s with
    | [] => [t]
    | c :: s' => if chr_isspace c then t :: split_from [] s'
                 else split_from (c :: rev t) s'
    end.
Proof.
  intros Ht. assert (Hr : rev t ≠ []).
  { intros Hr. apply Ht. by rewrite <- (rev_involutive t), Hr. }
  destruct s as [|c s']; simpl.
  - destruct (rev t) eqn:E; [done |]. by rewrite <- E, rev_involutive.
  - destruct (chr_isspace c); [|done].
    destruct (rev t) eqn:E; [done |]. by rewrite <- E, rev_involutive.
Qed.

(** [split] computes the tokenization, which is therefore unique. *)
Lemma tokenization_split (s : pystr) (toks : list pystr) :
  tokenization s toks → split s = toks.
Proof.
  unfold split. induction 1 as [ws Hws | ws t Hws Ht Hns
                               | ws t sep rest toks Hws Ht Hns Hsep _ IH].
  - rewrite <- (app_nil_r ws). by rewrite split_from_spaces.
  - rewrite split_from_spaces by done.
    pose proof (split_from_token t [] [] Hns) as E.
    rewrite !app_nil_r in E. rewrite E. by rewrite split_from_stop.
  - rewrite split_from_spaces, split_from_token by done.
    rewrite app_nil_r, split_from_stop by done.
    unfold is_space in Hsep. by rewrite Hsep, IH.
Qed.

(** The longest prefix of characters of one kind. *)
Lemma run_prefix (p : N → bool) (s : pystr) :
  ∃ a b, s = a ++ b ∧ Forall (λ c, p c = true) a
         ∧ (b = [] ∨ ∃ c b', b = c :: b' ∧ p c = false).
Proof.
  induction s as [|c s (a & b & -> & Ha & Hb)].
  - exists [], []. auto.
  - destruct (p c) eqn:Hc.
    + exists (c :: a), b. auto.
    + exists [], (c :: a ++ b). split; [done |]. split; [done |]. eauto.
Qed.

Lemma tokenization_exists (s : pystr) : ∃ toks, tokenization s toks.
Proof.
  remember (length s) as n eqn:Hn. revert s Hn.
  induction (lt_wf n) as [n _ IH]; intros s Hn.
  destruct (run_prefix chr_isspace s) as (ws & s1 & -> & Hws & Hs1).
  destruct Hs1 as [-> | (c & s1' & -> & Hc)].
  { exists []. rewrite app_nil_r. by constructor. }
  destruct (run_prefix (λ c, negb (chr_isspace c)) s1')
    as (t' & s2 & -> & Ht' & Hs2).
  assert (Ht : Forall non_space (c :: t')).
  { constructor; [done |]. eapply Forall_impl; [exact Ht' |].
    intros x Hx. by apply negb_true_iff. }
  destruct Hs2 as [-> | (sep & rest & -> & Hsep)].
  { exists [c :: t']. rewrite app_nil_r.
    by apply (tok_last ws (c :: t')). }
  apply negb_false_iff in Hsep.
  destruct (IH (length rest)) with (s := rest) as [toks Htoks]; [|done|].
  { subst n. rewrite !length_app. simpl. rewrite length_app. simpl. lia. }
  exists ((c :: t') :: toks).
  by apply (tok_more ws (c :: t') sep rest toks).
Qed.
End Words.

(** *** The frequency map *)

Lemma sum_values_insert (m : gmap N Z) (c : N) (v : Z) :
  sum_values (<[c := v]> m) = sum_values m - default 0 (m !! c) + v.
Proof.
  unfold sum_values. destruct (m !! c) as [x|] eqn:Hc; simpl.
  - rewrite <- insert_delete_eq.
    rewrite map_fold_insert_L; [| intros; lia | apply lookup_delete_eq].
    rewrite (map_fold_delete_L _ _ c x m); [lia | intros; lia | done].
  - rewrite map_fold_insert_L; [lia | intros; lia | done].
Qed.

Lemma sum_values_fold (s : pystr) (freq : gmap N Z) :
  sum_values (fold_left count_char s freq)
  = sum_values freq + Z.of_nat (length s).
Proof.
  revert freq. induction s as [|c s IH]; intros freq; simpl; [lia |].
  rewrite IH. unfold count_char. rewrite sum_values_insert. lia.
Qed.

Lemma dom_fold (s : pystr) (freq : gmap N Z) :
  dom (fold_left count_char s freq) = dom freq ∪ list_to_set s.
Proof.
  revert freq. induction s as [|c s IH]; intros freq; simpl.
  - by rewrite union_empty_r_L.
  - rewrite IH. unfold count_char. rewrite dom_insert_L.
    rewrite (union_comm_L {[c]} (dom freq)). by rewrite union_assoc_L.
Qed.

(** Every character is mapped to its number of occurrences. *)
Lemma lookup_fold (s : pystr) (freq : gmap N Z) (c : N) :
  fold_left count_char s freq !! c =
    if decide (c ∈ s)
    then Some (default 0 (freq !! c) + Z.of_nat (count_occ N.eq_dec s c))
    else freq !! c.
Proof.
  revert freq. induction s as [|a s IH]; intros freq.
  - cbn [fold_left]. rewrite decide_False; [done | apply not_elem_of_nil].
  - cbn [fold_left]. rewrite IH. unfold count_char.
    destruct (decide (a = c)) as [->|Hne].
    + rewrite lookup_insert_eq, (decide_True (P := c ∈ c :: s)) by left.
      rewrite count_occ_cons_eq by done. simpl.
      destruct (decide (c ∈ s)) as [Hin|Hnin]; [f_equal; lia |].
      rewrite list_elem_of_In in Hnin.
      apply (count_occ_not_In N.eq_dec) in Hnin. rewrite Hnin.
      f_equal; lia.
    + rewrite lookup_insert_ne by done.
      rewrite count_occ_cons_neq by done.
      destruct (decide (c ∈ s)) as [Hin|Hnin].
      * rewrite decide_True; [done | by right].
      * rewrite decide_False; [done |].
        intros [?|?]%elem_of_cons; congruence.
Qed.

Lemma character_frequency_map_lookup (s : pystr) (c : N) :
  character_frequency_map s !! c =
    if decide (c ∈ s) then Some (Z.of_nat (count_occ N.eq_dec s c))
    else None.
Proof.
  unfold character_frequency_map.
  change (fold_left _ s ∅) with (fold_left count_char s ∅).
  rewrite lookup_fold, lookup_empty. done.
Qed.

Section Counts.
Context `{PyRuntime}.

(** C8. [length] is the number of code points of the value, [word_count]
    the number of tokens of its (unique) decomposition into maximal runs
    of non-whitespace characters, 0 for the empty string, and
    [unique_characters] the number of distinct characters of the
    original value: the length of any duplicate-free list holding exactly
    its characters, such as the value with its repetitions removed. *)
Theorem analyze_counts (now s : pystr) :
  let p := rec_properties (analyze_string now s) in
  prop_length p = Z.of_nat (length s)
  ∧ (∃ toks, tokenization s toks)
  ∧ (∀ toks, tokenization s toks →
       prop_word_count p = Z.of_nat (length toks))
  ∧ (s = [] → prop_word_count p = 0)
  ∧ (∀ l : list N, NoDup l → (∀ c, c ∈ l ↔ c ∈ s) →
       prop_unique_characters p = Z.of_nat (length l))
  ∧ prop_unique_characters p = Z.of_nat (length (remove_dups s)).
Proof.
  assert (Huniq : ∀ l : list N, NoDup l → (∀ c, c ∈ l ↔ c ∈ s) →
            Z.of_nat (size (list_to_set s : gset N)) = Z.of_nat (length l)).
  { intros l Hnd Hl. f_equal.
    rewrite <- (size_list_to_set (C := gset N) l) by done.
    f_equal. apply set_eq. intros c.
    rewrite !elem_of_list_to_set. symmetry. apply Hl. }
  simpl. split; [done |]. split; [apply tokenization_exists |].
  split; [| split; [| split]].
  - intros toks Htoks. by rewrite (tokenization_split s toks).
  - by intros ->.
  - exact Huniq.
  - apply Huniq; [apply NoDup_remove_dups |].
    intros c. apply elem_of_remove_dups.
Qed.

(** C9. The record is consistent: the frequencies sum to [length], the
    characters counted are exactly the distinct characters of the value,
    and there are [unique_characters] of them. *)
Theorem analyze_frequency_consistent (now s : pystr) :
  let p := rec_properties (analyze_string now s) in
  let freq := prop_character_frequency_map p in
  sum_values freq = prop_length p
  ∧ dom freq = list_to_set s
  ∧ (∀ c, c ∈ s ↔ is_Some (freq !! c))
  ∧ Z.of_nat (size freq) = prop_unique_characters p.
Proof.
  simpl. unfold character_frequency_map.
  change (fold_left _ s ∅) with (fold_left count_char s ∅).
  assert (Hdom : dom (fold_left count_char s ∅) = list_to_set s).
  { by rewrite dom_fold, dom_empty_L, union_empty_l_L. }
  split; [| split; [| split]].
  - rewrite sum_values_fold. unfold sum_values. by rewrite map_fold_empty.
  - exact Hdom.
  - intros c. rewrite <- elem_of_dom, Hdom. by rewrite elem_of_list_to_set.
  - by rewrite <- Hdom, size_dom.
Qed.
End Counts.

Lemma analyze_counts_witness :
  let p := rec_properties (analyze_string (u "") (u "  hello   world ")) in
  prop_word_count p = 2 ∧ prop_unique_characters p = 8.
Proof.
  destruct (analyze_counts (u "") (u "  hello   world "))
    as (_ & _ & Hwords & _ & Huniq & _).
  split.
  - apply (Hwords [u "hello"; u "world"]).
    apply (tok_more (u "  ") (u "hello") 32%N (u "  world ")
                    [u "world"]).
    + repeat constructor.
    + discriminate.
    + repeat constructor.
    + reflexivity.
    + apply (tok_more (u "  ") (u "world") 32%N [] []).
      * repeat constructor.
      * discriminate.
      * repeat constructor.
      * reflexivity.
      * by constructor.
  - apply (Huniq (u " helowrd")).
    + by apply (bool_decide_unpack _); vm_compute.
    + intros c. split; revert c.
      * change (u " helowrd" ⊆ u "  hello   world ").
        by apply (bool_decide_unpack _); vm_compute.
      * change (u "  hello   world " ⊆ u " helowrd").
        by apply (bool_decide_unpack _); vm_compute.
Defined.

Example analyze_hello_world :
  let p := rec_properties (analyze_string (u "") (u "hello world")) in
  prop_length p = 11 ∧ prop_word_count p = 2.
Proof. split; reflexivity. Qed.

(** One character, two bytes of UTF-8. *)
Example length_counts_code_points :
  prop_length (rec_properties (analyze_string (u "") [0xE9%N])) = 1
  ∧ length (utf8_encode [0xE9%N]) = 2%nat.
Proof. split; reflexivity. Qed.

Example frequency_hello :
  character_frequency_map (u "hello")
  = <[104%N := 1]> (<[101%N := 1]> (<[108%N := 2]> (<[111%N := 1]> ∅))).
Proof. vm_compute. reflexivity. Qed.

(** ** Filtering *)

#[global] Instance holds_dec {A} (o : option A) (P : A → Prop)
  `{∀ a, Decision (P a)} : Decision (holds o P).
Proof.
  destruct o as [a|].
  - destruct (decide (P a)) as [Hp|Hn].
    + left. by intros ? [= <-].
    + right. intros Hh. by apply Hn, Hh.
  - left. by intros ?.
Defined.

#[global] Instance occurs_dec (c s : pystr) :
  Decision (∃ pre post, s = pre ++ c ++ post).
Proof.
  destruct (str_in c s) eqn:E.
  - left. by apply str_in_spec.
  - right. intros (pre & post & Heq).
    by apply (proj1 (str_in_false c s) E pre post).
Defined.

#[global] Instance matches_dec r p : Decision (matches r p).
Proof. unfold matches. apply _. Defined.

Lemma holds_is_not_None_and {A} (o : option A) (P : A → Prop)
    (reject : A → bool) :
  (∀ a, reject a = false ↔ P a) →
  is_not_None_and o reject = false ↔ holds o P.
Proof.
  intros Hr. destruct o as [a|]; simpl.
  - rewrite Hr. split.
    + by intros Hp ? [= <-].
    + intros Hh. by apply Hh.
  - split; [by intros _ ? | done].
Qed.

Section FilterStep.
Variables (is_palindrome : option bool) (min_length max_length : option Z)
          (word_count : option Z) (contains_character : option pystr).

Let p : FilterPredicate :=
  {| f_is_palindrome := is_palindrome; f_min_length := min_length;
     f_max_length := max_length; f_word_count := word_count;
     f_contains_character := contains_character |}.

(** The loop keeps what it has and appends the matching records. *)
Lemma filter_strings_from (all_strings acc : list StringRecord) :
  fold_left
    (λ filtered_strings string_obj,
       let props := rec_properties string_obj in
       if is_not_None_and is_palindrome
            (λ x, negb (eqb (prop_is_palindrome props) x))
       then filtered_strings
       else if is_not_None_and min_length (λ x, prop_length props <? x)
       then filtered_strings
       else if is_not_None_and max_length (λ x, prop_length props >? x)
       then filtered_strings
       else if is_not_None_and word_count
                 (λ x, negb (prop_word_count props =? x))
       then filtered_strings
       else if is_not_None_and contains_character
                 (λ x, negb (str_in x (rec_value string_obj)))
       then filtered_strings
       else filtered_strings ++ [string_obj])
    all_strings acc
  = acc ++ filter (λ r, matches r p) all_strings.
Proof.
  revert acc. induction all_strings as [|r l IH]; intros acc.
  - simpl. by rewrite app_nil_r.
  - cbn [fold_left]. rewrite IH, filter_cons. clear IH.
    pose proof (holds_is_not_None_and is_palindrome
      (λ b, prop_is_palindrome (rec_properties r) = b)
      (λ x, negb (eqb (prop_is_palindrome (rec_properties r)) x))) as H1.
    pose proof (holds_is_not_None_and min_length
      (λ n, n ≤ prop_length (rec_properties r))
      (λ x, prop_length (rec_properties r) <? x)) as H2.
    pose proof (holds_is_not_None_and max_length
      (λ n, prop_length (rec_properties r) ≤ n)
      (λ x, prop_length (rec_properties r) >? x)) as H3.
    pose proof (holds_is_not_None_and word_count
      (λ n, prop_word_count (rec_properties r) = n)
      (λ x, negb (prop_word_count (rec_properties r) =? x))) as H4.
    pose proof (holds_is_not_None_and contains_character
      (λ c, ∃ pre post, rec_value r = pre ++ c ++ post)
      (λ x, negb (str_in x (rec_value r)))) as H5.
    cbv beta in *.
    destruct (decide (matches r p)) as [Hm|Hn].
    + destruct Hm as (M1 & M2 & M3 & M4 & M5); simpl in *.
      apply H1 in M1 as ->; [| intros a; rewrite negb_false_iff;
                                apply eqb_true_iff].
      apply H2 in M2 as ->; [| intros a; rewrite Z.ltb_ge; tauto].
      apply H3 in M3 as ->;
        [| intros a; rewrite Z.gtb_ltb, Z.ltb_ge; tauto].
      apply H4 in M4 as ->; [| intros a; rewrite negb_false_iff;
                                apply Z.eqb_eq].
      apply H5 in M5 as ->; [| intros a; rewrite negb_false_iff;
                                apply str_in_spec].
      by rewrite <- app_assoc.
    + assert (Hrej :
        is_not_None_and is_palindrome
          (λ x, negb (eqb (prop_is_palindrome (rec_properties r)) x))
          = false
        → is_not_None_and min_length
            (λ x, prop_length (rec_properties r) <? x) = false
        → is_not_None_and max_length
            (λ x, prop_length (rec_properties r) >? x) = false
        → is_not_None_and word_count
            (λ x, negb (prop_word_count (rec_properties r) =? x)) = false
        → is_not_None_and contains_character
            (λ x, negb (str_in x (rec_value r))) = false
        → False).
      { intros E1 E2 E3 E4 E5. apply Hn. repeat split; simpl.
        - apply H1; [| done]. intros a. rewrite negb_false_iff.
          apply eqb_true_iff.
        - apply H2; [| done]. intros a. rewrite Z.ltb_ge. tauto.
        - apply H3; [| done]. intros a. rewrite Z.gtb_ltb, Z.ltb_ge. tauto.
        - apply H4; [| done]. intros a. rewrite negb_false_iff.
          apply Z.eqb_eq.
        - apply H5; [| done]. intros a. rewrite negb_false_iff.
          apply str_in_spec. }
      repeat (match goal with
              | |- context [if ?b then _ else _] =>
                  destruct b eqn:?; [done |]
              end).
      by destruct Hrej.
Qed.
End FilterStep.

Lemma matches_empty_predicate (r : StringRecord) : matches r empty_predicate.
Proof. repeat split; by intros ?. Qed.

Lemma filter_all_true {A} (P : A → Prop) `{∀ x, Decision (P x)}
    (l : list A) :
  (∀ x, P x) → filter P l = l.
Proof.
  intros HP. induction l as [|x l IH]; [done |].
  rewrite filter_cons, decide_True by done. by rewrite IH.
Qed.

(** C2. Filtering returns exactly the records that satisfy every present
    field of the predicate, in the order of the input: the outcome is the
    input with the non-matching records struck out.  It is thus a
    subsequence of the input, a record is in it exactly when it is in the
    input and matches, and the empty predicate keeps every record.  The
    route applies this to the values of the store. *)
Theorem filter_strings_exact (records : list StringRecord)
    (p : FilterPredicate) :
  let result :=
    filter_strings records (f_is_palindrome p) (f_min_length p)
      (f_max_length p) (f_word_count p) (f_contains_character p) in
  result = filter (λ r, matches r p) records
  ∧ sublist result records
  ∧ (∀ r, r ∈ result ↔ r ∈ records ∧ matches r p)
  ∧ (∀ r, matches r empty_predicate)
  ∧ filter_strings records None None None None None = records
  ∧ (∀ storage, ∃ body,
       get_all_strings storage (f_is_palindrome p) (f_min_length p)
         (f_max_length p) (f_word_count p) (f_contains_character p)
       = Ok body
       ∧ data body = filter (λ r, matches r p) (all_values storage)
       ∧ count body = Z.of_nat (length (data body))).
Proof.
  assert (Hexact : ∀ l q,
    filter_strings l (f_is_palindrome q) (f_min_length q)
      (f_max_length q) (f_word_count q) (f_contains_character q)
    = filter (λ r, matches r q) l).
  { intros l q. unfold filter_strings. rewrite filter_strings_from.
    by destruct q. }
  intros result. unfold result. rewrite Hexact.
  split; [done |]. split; [apply sublist_filter |].
  split; [intros r; by rewrite list_elem_of_filter, (comm and) |].
  split; [apply matches_empty_predicate |]. split.
  - etrans; [exact (Hexact records empty_predicate) |].
    apply filter_all_true, matches_empty_predicate.
  - intros storage. eexists. unfold get_all_strings.
    split; [reflexivity |]. simpl. by rewrite Hexact.
Qed.

Example filter_strings_run :
  let t := u "2026-01-01T00:00:00+00:00" in
  let racecar := analyze_string t (u "racecar") in
  let hello := analyze_string t (u "hello world") in
  let panama := analyze_string t (u "A man a plan a canal Panama") in
  let records := [racecar; hello; panama] in
  filter_strings records (Some true) None None None None
    = [racecar; panama]
  ∧ filter_strings records (Some true) (Some 8) None None None = [panama]
  ∧ filter_strings records None None (Some 11) None (Some (u "o"))
    = [hello]
  ∧ filter_strings records None None None None (Some (u "P")) = [panama]
  ∧ filter_strings records None None None None (Some (u "p")) = [panama]
  ∧ filter_strings records None None None None (Some (u "H")) = [].
Proof. vm_compute. repeat split. Qed.

(** ** The store and the routes *)

Lemma exists_true (storage : FileStorage) (key : pystr) :
  exists_ storage key = true ↔ is_Some (get_object storage key).
Proof. unfold exists_, get_object. apply bool_decide_eq_true. Qed.

Lemma exists_missing_file (key : pystr) : exists_ None key = false.
Proof.
  apply bool_decide_eq_false. unfold all. rewrite lookup_empty.
  by intros [? ?].
Qed.

Lemma get_after_save (storage : FileStorage) (key : pystr)
    (obj : StringRecord) :
  get_object (save_object storage key obj) key = Some obj.
Proof. unfold get_object, save_object. simpl. apply lookup_insert_eq. Qed.

Lemma get_after_save_other (storage : FileStorage) (key key' : pystr)
    (obj : StringRecord) :
  key ≠ key' →
  get_object (save_object storage key obj) key' = get_object storage key'.
Proof.
  intros Hne. unfold get_object, save_object. simpl.
  by apply lookup_insert_ne.
Qed.

Section RouteFacts.
Context `{PyRuntime}.

(** C6. Creating a string whose id is already in the store is refused
    with a conflict: the check sees the id, the route raises 409 and
    leaves the store as it was, so the record under that id is the one
    that was there; the outcome does not depend on the clock, which only
    the analysis reads. *)
Theorem create_string_conflict (now : pystr) (storage : FileStorage)
    (value : pystr) :
  is_Some (get_object storage (sha256_hash value)) →
  exists_ storage (sha256_hash value) = true
  ∧ create_string now storage value
    = (HTTPException 409 "String already exists in the system", storage)
  ∧ get_object (create_string now storage value).2 (sha256_hash value)
    = get_object storage (sha256_hash value)
  ∧ (∀ now', create_string now' storage value
             = create_string now storage value).
Proof.
  intros Hex%exists_true. unfold create_string. rewrite Hex. done.
Qed.

(** C7. A record stored under the fingerprint of its string and read
    back by that key carries the string itself; so does the record that
    the lookup route returns after a successful creation. *)
Theorem store_round_trip (now : pystr) (storage : FileStorage)
    (s : pystr) :
  (∃ r, get_object
          (save_object storage (sha256_hash s) (analyze_string now s))
          (sha256_hash s) = Some r
        ∧ rec_value r = s)
  ∧ (∀ r storage',
       create_string now storage s = (Ok r, storage') →
       get_string storage' s = Ok (Some r) ∧ rec_value r = s).
Proof.
  split.
  - exists (analyze_string now s). by rewrite get_after_save.
  - intros r storage'. unfold create_string.
    destruct (exists_ storage (sha256_hash s)); [done |].
    intros [= <- <-]. split; [| done].
    unfold get_string.
    assert (Hget := get_after_save storage (sha256_hash s)
                      (analyze_string now s)).
    assert (Hex : exists_ (save_object storage (sha256_hash s)
                             (analyze_string now s)) (sha256_hash s) = true).
    { apply exists_true. rewrite Hget. eauto. }
    by rewrite Hex, Hget.
Qed.
End RouteFacts.

Lemma create_string_conflict_witness :
  let t0 := u "2026-01-01T00:00:00+00:00" in
  let t1 := u "2026-01-02T00:00:00+00:00" in
  let storage := (create_string t0 None (u "test string")).2 in
  create_string t1 storage (u "test string")
  = (HTTPException 409 "String already exists in the system", storage).
Proof.
  intros t0 t1 storage.
  destruct (create_string_conflict t1 storage (u "test string"))
    as (_ & Hconflict & _); [| exact Hconflict].
  unfold storage. vm_compute. eauto.
Defined.

Lemma store_round_trip_witness :
  let t0 := u "2026-01-01T00:00:00+00:00" in
  let r := analyze_string t0 (u "get me") in
  get_string (save_object None (sha256_hash (u "get me")) r) (u "get me")
  = Ok (Some r)
  ∧ rec_value r = u "get me".
Proof.
  intros t0 r.
  destruct (store_round_trip t0 None (u "get me")) as [_ Hroute].
  apply Hroute. unfold create_string.
  rewrite exists_missing_file. reflexivity.
Defined.

(** ** Regular expressions *)

Section MatcherFacts.
Context {R : Type}.
Implicit Types (k : pystr → option pystr → option R) (x : R).

Lemma plus_greedy_sound cls s (k : pystr → option R) x :
  plus_greedy cls s k = Some x →
  ∃ s1 s2, s = s1 ++ s2 ∧ s1 ≠ [] ∧ Forall (λ c, cls c = true) s1
           ∧ k s2 = Some x.
Proof.
  revert x. induction s as [|c s IH]; intros x; simpl; [done |].
  destruct (cls c) eqn:Hc; [| done].
  destruct (plus_greedy cls s k) as [m|] eqn:Hrec.
  - intros [= <-]. destruct (IH m eq_refl) as (s1 & s2 & -> & _ & Hs1 & Hk).
    exists (c :: s1), s2. split; [done |]. split; [done |].
    split; [by constructor | done].
  - intros Hk. exists [c], s. split; [done |]. split; [done |].
    split; [by repeat constructor | done].
Qed.

Lemma plus_greedy_complete cls s1 s2 (k : pystr → option R) :
  s1 ≠ [] → Forall (λ c, cls c = true) s1 → is_Some (k s2) →
  is_Some (plus_greedy cls (s1 ++ s2) k).
Proof.
  intros Hne Hall Hk. induction Hall as [|c s1 Hc Hall IH]; [done |].
  simpl. rewrite Hc. destruct s1 as [|c' s1].
  - simpl. destruct (plus_greedy cls s2 k); [eauto | done].
  - destruct IH as [m ->]; [done | eauto].
Qed.

(** With a continuation that accepts, [cls+] takes the whole run. *)
Lemma plus_greedy_longest cls run rest (k : pystr → option R) :
  run ≠ [] → Forall (λ c, cls c = true) run →
  (∀ c rest', rest = c :: rest' → cls c = false) →
  is_Some (k rest) →
  plus_greedy cls (run ++ rest) k = k rest.
Proof.
  intros Hne Hall Hrest [m Hk].
  induction Hall as [|c run Hc Hall IH]; [done |].
  simpl. rewrite Hc. destruct run as [|c' run].
  - simpl. destruct rest as [|d rest']; [done |].
    simpl. by rewrite (Hrest d rest').
  - rewrite IH by done. by rewrite Hk.
Qed.

Lemma re_match_sound r s g k x :
  re_match r s g k = Some x →
  ∃ s1 s2 g', s = s1 ++ s2 ∧ matches_re r s1 g g' ∧ k s2 g' = Some x.
Proof.
  revert s g k x.
  induction r as [l | cls | cls | r1 IH1 r2 IH2 | r1 IH1 r2 IH2
                 | r1 IH1 | r1 IH1]; intros s g k x; simpl.
  - destruct (startswith l s) eqn:Hl; [| done].
    intros Hk. exists l, (drop (length l) s), g.
    split; [by apply startswith_drop |]. split; [constructor | done].
  - destruct s as [|c s]; [done |]. destruct (cls c) eqn:Hc; [| done].
    intros Hk. exists [c], s, g. split; [done |].
    split; [by constructor | done].
  - intros (s1 & s2 & -> & Hne & Hall & Hk)%plus_greedy_sound.
    exists s1, s2, g. split; [done |]. split; [by constructor | done].
  - intros (s1 & s' & g1 & -> & Hm1 & Hk)%IH1.
    apply IH2 in Hk as (s2 & s3 & g2 & -> & Hm2 & Hk).
    exists (s1 ++ s2), s3, g2. rewrite <- app_assoc.
    split; [done |]. split; [by econstructor | done].
  - destruct (re_match r1 s g k) as [m|] eqn:H1.
    + intros [= <-].
      apply IH1 in H1 as (s1 & s2 & g' & -> & Hm & Hk).
      exists s1, s2, g'. split; [done |]. split; [by apply M_AltL | done].
    + intros (s1 & s2 & g' & -> & Hm & Hk)%IH2.
      exists s1, s2, g'. split; [done |]. split; [by apply M_AltR | done].
  - destruct (re_match r1 s g k) as [m|] eqn:H1.
    + intros [= <-].
      apply IH1 in H1 as (s1 & s2 & g' & -> & Hm & Hk).
      exists s1, s2, g'. split; [done |].
      split; [by apply M_OptSome | done].
    + intros Hk. exists [], s, g. split; [done |].
      split; [apply M_OptNone | done].
  - intros (s1 & s2 & g' & -> & Hm & Hk)%IH1.
    exists s1, s2, (Some s1). split; [done |].
    split; [by econstructor |].
    rewrite length_app, Nat.add_sub, take_app_length in Hk. done.
Qed.

Lemma re_match_complete r s1 g g' :
  matches_re r s1 g g' →
  ∀ s2 k, is_Some (k s2 g') → is_Some (re_match r (s1 ++ s2) g k).
Proof.
  induction 1 as [l g | cls c g Hc | cls s g Hne Hall
                 | r1 r2 s1 s2 g g1 g2 _ IH1 _ IH2
                 | r1 r2 s g g' _ IH | r1 r2 s g g' _ IH
                 | r s g g' _ IH | r g | r s g g' _ IH];
    intros s3 k Hk; simpl.
  - by rewrite startswith_app, drop_app_length.
  - by rewrite Hc.
  - by apply plus_greedy_complete.
  - rewrite <- app_assoc. apply IH1. by apply IH2.
  - destruct (IH s3 k Hk) as [m ->]. eauto.
  - destruct (re_match r1 (s ++ s3) g k); [eauto |]. by apply IH.
  - destruct (IH s3 k Hk) as [m ->]. eauto.
  - destruct (re_match r s3 g k); [eauto | done].
  - apply IH. by rewrite length_app, Nat.add_sub, take_app_length.
Qed.
End MatcherFacts.

Lemma plus_greedy_accepting {R} cls s (k : pystr → option R) x :
  (∀ s', is_Some (k s')) →
  plus_greedy cls s k = Some x →
  ∃ run rest, s = run ++ rest ∧ run ≠ []
    ∧ Forall (λ c, cls c = true) run
    ∧ (∀ c rest', rest = c :: rest' → cls c = false)
    ∧ k rest = Some x.
Proof.
  intros Hk. revert x. induction s as [|c s IH]; intros x; simpl; [done |].
  destruct (cls c) eqn:Hc; [| done].
  destruct (plus_greedy cls s k) as [m|] eqn:Hrec.
  - intros [= <-].
    destruct (IH m eq_refl) as (run & rest & -> & _ & Hall & Hmax & Hx).
    exists (c :: run), rest. repeat split; auto.
  - intros Hx. exists [c], s. repeat split; auto.
    intros d rest' ->. destruct (cls d) eqn:Hd; [| done].
    simpl in Hrec. rewrite Hd in Hrec.
    destruct (plus_greedy cls rest' k); [done |].
    destruct (Hk rest') as [? Hsome]. congruence.
Qed.

(** *** Search *)

Lemma re_search_sound r s m :
  re_search r s = Some m →
  ∃ pre s1 s2, s = pre ++ s1 ++ s2 ∧ matches_re r s1 None (group1 m).
Proof.
  induction s as [|c s IH]; simpl.
  - destruct (re_match r [] None _) as [m'|] eqn:Hm; [| done].
    intros [= <-].
    apply re_match_sound in Hm as (s1 & s2 & g & -> & Hm & [= <-]).
    by exists [], s1, s2.
  - destruct (re_match r (c :: s) None _) as [m'|] eqn:Hm.
    + intros [= <-].
      apply re_match_sound in Hm as (s1 & s2 & g & -> & Hm & [= <-]).
      by exists [], s1, s2.
    + intros (pre & s1 & s2 & -> & Hm')%IH. by exists (c :: pre), s1, s2.
Qed.

Lemma re_search_complete r pre s1 s2 g :
  matches_re r s1 None g → is_Some (re_search r (pre ++ s1 ++ s2)).
Proof.
  intros Hm.
  assert (Hhere : ∀ s, s = s1 ++ s2 → is_Some (re_search r s)).
  { intros s ->.
    destruct (re_match_complete r s1 None g Hm s2
                (λ _ g, Some {| group1 := g |})) as [m Hsome]; [eauto |].
    destruct s1, s2; simpl in *; rewrite Hsome; eauto. }
  induction pre as [|c pre IH]; [by apply Hhere |].
  simpl. destruct (re_match r _ None _); eauto.
Qed.

Lemma re_search_None r s :
  re_search r s = None ↔
  ∀ pre s1 s2 g, s = pre ++ s1 ++ s2 → ¬ matches_re r s1 None g.
Proof.
  split.
  - intros Hnone pre s1 s2 g -> Hm.
    destruct (re_search_complete r pre s1 s2 g Hm) as [m Hsome]. congruence.
  - intros Hno. destruct (re_search r s) as [m|] eqn:Hs; [| done].
    apply re_search_sound in Hs as (pre & s1 & s2 & -> & Hm).
    by destruct (Hno pre s1 s2 (group1 m)).
Qed.

Lemma re_search_here r s m :
  re_match r s None (λ _ g, Some {| group1 := g |}) = Some m →
  re_search r s = Some m.
Proof. intros Hm. destruct s; simpl; by rewrite Hm. Qed.

Lemma re_search_skip r pre s :
  (∀ pre1 pre2, pre = pre1 ++ pre2 → pre2 ≠ [] →
     re_match r (pre2 ++ s) None (λ _ g, Some {| group1 := g |}) = None) →
  re_search r (pre ++ s) = re_search r s.
Proof.
  induction pre as [|c pre IH]; intros Hno; [done |].
  assert (E := Hno [] (c :: pre) eq_refl ltac:(done)).
  simpl in *. rewrite E.
  apply IH. intros pre1 pre2 -> Hne. by apply (Hno (c :: pre1) pre2).
Qed.

(** ** The translator *)

(** Take apart a derivation for a sequence, a group, a literal, a class
    or a repetition; choices are left alone. *)
Ltac invert_re :=
  repeat match goal with
         | Hm : matches_re (Cat _ _) _ _ _ |- _ =>
             inversion Hm; subst; clear Hm
         | Hm : matches_re (Group _) _ _ _ |- _ =>
             inversion Hm; subst; clear Hm
         | Hm : matches_re (Lit _) _ _ _ |- _ =>
             inversion Hm; subst; clear Hm
         | Hm : matches_re (OneOf _) _ _ _ |- _ =>
             inversion Hm; subst; clear Hm
         | Hm : matches_re (Plus _) _ _ _ |- _ =>
             inversion Hm; subst; clear Hm
         end.

Section TranslatorFacts.
Context `{PyRuntime}.

Lemma length_re_inv (s : pystr) (g0 g : option pystr) :
  matches_re length_re s g0 g →
  ∃ ds, s = u "longer than " ++ ds ∧ ds ≠ [] ∧ Forall is_digit ds
        ∧ g = Some ds.
Proof.
  unfold length_re. intros Hm. invert_re. eauto.
Qed.

Lemma letter_re_inv (s : pystr) (g0 g : option pystr) :
  matches_re letter_re s g0 g →
  ∃ c, chr_is_a_z c = true ∧ g = Some [c].
Proof.
  unfold letter_re. intros Hm. invert_re. eauto.
Qed.

Lemma py_int_digits (ds : pystr) :
  ds ≠ [] → Forall is_digit ds → ∃ n, py_int ds = Some n ∧ 0 ≤ n.
Proof.
  intros Hne Hall. unfold py_int.
  assert (Hf : forallb chr_isdecimal ds = true).
  { apply forallb_forall. intros c Hc%list_elem_of_In.
    by apply (proj1 (Forall_forall _ _) Hall). }
  rewrite Hf. destruct ds as [|d ds]; [done |]. eexists. split; [done |].
  generalize (d :: ds). intros l.
  assert (Hacc : ∀ acc, 0 ≤ acc →
            0 ≤ fold_left (λ acc c, 10 * acc + Z.of_N (chr_digit c)) l acc).
  { induction l as [|c l IH]; intros acc Hacc; simpl; [done |].
    apply IH. lia. }
  by apply Hacc.
Qed.

Lemma re_match_length_re {R} (s : pystr) (g : option pystr)
    (k : pystr → option pystr → option R) :
  re_match length_re s g k =
    if startswith (u "longer than ") s
    then let s0 := drop (length (u "longer than ")) s in
         plus_greedy chr_isdecimal s0
           (λ s', k s' (Some (take (length s0 - length s') s0)))
    else None.
Proof. reflexivity. Qed.

(** At a position where the phrase starts, the match takes the whole
    number. *)
Lemma re_match_length_here (ds post : pystr) :
  whole_number ds post →
  re_match length_re (u "longer than " ++ ds ++ post) None
    (λ _ g, Some {| group1 := g |})
  = Some {| group1 := Some ds |}.
Proof.
  intros (Hne & Hall & Hmax).
  rewrite re_match_length_re, startswith_app. cbv zeta.
  rewrite drop_app_length, plus_greedy_longest by eauto.
  by rewrite length_app, Nat.add_sub, take_app_length.
Qed.

Lemma re_match_length_inv (s : pystr) (m : Match) :
  re_match length_re s None (λ _ g, Some {| group1 := g |}) = Some m →
  ∃ ds post, s = u "longer than " ++ ds ++ post ∧ whole_number ds post
             ∧ m = {| group1 := Some ds |}.
Proof.
  rewrite re_match_length_re.
  destruct (startswith _ s) eqn:Hl; [| done]. cbv zeta.
  apply startswith_drop in Hl. revert Hl.
  generalize (drop (length (u "longer than ")) s). intros s0 ->.
  intros (ds & post & -> & Hne & Hall & Hmax & Hm)%plus_greedy_accepting;
    [| eauto].
  exists ds, post. split; [done |]. split; [done |].
  rewrite length_app, Nat.add_sub, take_app_length in Hm. congruence.
Qed.

Lemma re_search_length_first (pre ds post : pystr) :
  first_longer_than (pre ++ u "longer than " ++ ds ++ post) pre →
  whole_number ds post →
  re_search length_re (pre ++ u "longer than " ++ ds ++ post)
  = Some {| group1 := Some ds |}.
Proof.
  intros Hfirst Hnum. rewrite re_search_skip.
  - by apply re_search_here, re_match_length_here.
  - intros pre1 pre2 -> Hne.
    destruct (re_match length_re _ None _) as [m|] eqn:Hm; [| done].
    exfalso.
    apply re_match_length_inv in Hm as (ds' & post' & Heq & Hnum' & _).
    destruct Hnum' as (Hne' & Hall' & _).
    destruct ds' as [|d ds']; [done |].
    specialize (Hfirst pre1 d (ds' ++ post')).
    rewrite <- (app_assoc pre1), Heq in Hfirst.
    specialize (Hfirst eq_refl ltac:(by inversion Hall')).
    rewrite length_app in Hfirst.
    destruct pre2; [done | simpl in Hfirst; lia].
Qed.

(** A text that holds the phrase holds a first one, with its number. *)
Lemma first_longer_than_exists (ql : pystr) :
  (∃ pre d post, ql = pre ++ u "longer than " ++ d :: post ∧ is_digit d) →
  ∃ pre ds post,
    ql = pre ++ u "longer than " ++ ds ++ post
    ∧ first_longer_than ql pre ∧ whole_number ds post.
Proof.
  induction ql as [|c ql IH]; intros (pre0 & d0 & post0 & Heq & Hd0).
  { by destruct pre0. }
  destruct (re_match length_re (c :: ql) None
              (λ _ g, Some {| group1 := g |})) as [m|] eqn:Hm.
  - apply re_match_length_inv in Hm as (ds & post & Hs & Hnum & _).
    exists [], ds, post. split; [done |]. split; [| done].
    intros ? ? ? _ _. simpl. lia.
  - assert (Hlater : ∀ pre1 d rest,
              c :: ql = pre1 ++ u "longer than " ++ d :: rest → is_digit d →
              ∃ pre1', pre1 = c :: pre1'
                       ∧ ql = pre1' ++ u "longer than " ++ d :: rest).
    { intros pre1 d rest Hs Hd. destruct pre1 as [|c' pre1].
      - exfalso. rewrite app_nil_l in Hs. rewrite Hs in Hm.
        destruct (run_prefix chr_isdecimal rest)
          as (a & b & -> & Ha & Hb).
        change (u "longer than " ++ d :: a ++ b)
          with (u "longer than " ++ (d :: a) ++ b) in Hm.
        rewrite re_match_length_here in Hm; [done |].
        split; [done |]. split; [by constructor |].
        intros x b' ->. destruct Hb as [| (? & ? & [= <- <-] & ?)]; done.
      - injection Hs as <- ->. eauto. }
    destruct (Hlater pre0 d0 post0 Heq Hd0) as (pre0' & -> & Heq').
    destruct IH as (pre & ds & post & -> & Hfirst & Hnum); [eauto |].
    exists (c :: pre), ds, post. split; [done |]. split; [| done].
    intros pre1 d rest Hs Hd.
    destruct (Hlater pre1 d rest Hs Hd) as (pre1' & -> & Hs').
    simpl. apply le_n_S. by apply (Hfirst pre1' d rest).
Qed.

Lemma parse_natural_language_rules (query : pystr) :
  parse_natural_language query =
    let ql := strip (str_lower query) in
    let filters := word_count_rule ql (palindrome_rule ql ∅) in
    match re_search length_re ql with
    | Some m =>
        match int_group1 m with
        | Return n =>
            Return (first_vowel_rule ql
                      (letter_rule ql (<["min_length" := VInt (n + 1)]> filters)))
        | Raise e => Raise e
        end
    | None => Return (first_vowel_rule ql (letter_rule ql filters))
    end.
Proof.
  unfold parse_natural_language. cbv zeta.
  destruct (re_search length_re _) as [m|]; [| reflexivity].
  destruct (int_group1 m); reflexivity.
Qed.

Lemma length_match_group (ql : pystr) (m : Match) :
  re_search length_re ql = Some m →
  ∃ ds n, group1 m = Some ds ∧ ds ≠ [] ∧ Forall is_digit ds
          ∧ py_int ds = Some n ∧ 0 ≤ n ∧ int_group1 m = Return n.
Proof.
  intros (pre & s1 & s2 & _ & Hm)%re_search_sound.
  apply length_re_inv in Hm as (ds & _ & Hne & Hall & Hg).
  destruct (py_int_digits ds Hne Hall) as (n & Hn & Hpos).
  exists ds, n. unfold int_group1. rewrite Hg, Hn. done.
Qed.

Lemma letter_match_group (ql : pystr) (m : Match) :
  re_search letter_re ql = Some m →
  ∃ c, chr_is_a_z c = true ∧ group1_value m = VStr [c].
Proof.
  intros (pre & s1 & s2 & _ & Hm)%re_search_sound.
  apply letter_re_inv in Hm as (c & Hc & Hg).
  exists c. unfold group1_value. by rewrite Hg.
Qed.

Lemma palindrome_rule_other ql filters (key : string) :
  key ≠ "is_palindrome" → palindrome_rule ql filters !! key = filters !! key.
Proof.
  intros Hk. unfold palindrome_rule.
  destruct (existsb _ _); [| done]. by rewrite lookup_insert_ne.
Qed.

Lemma word_count_rule_other ql filters (key : string) :
  key ≠ "word_count" → word_count_rule ql filters !! key = filters !! key.
Proof.
  intros Hk. unfold word_count_rule.
  destruct (_ || _); [by rewrite lookup_insert_ne |].
  destruct (str_in _ _); [| done]. by rewrite lookup_insert_ne.
Qed.

Lemma letter_rule_other ql filters (key : string) :
  key ≠ "contains_character" → letter_rule ql filters !! key = filters !! key.
Proof.
  intros Hk. unfold letter_rule.
  destruct (re_search _ _); [| done]. by rewrite lookup_insert_ne.
Qed.

Lemma first_vowel_rule_other ql filters (key : string) :
  key ≠ "contains_character" →
  first_vowel_rule ql filters !! key = filters !! key.
Proof.
  intros Hk. unfold first_vowel_rule.
  destruct (str_in _ _); [| done]. by rewrite lookup_insert_ne.
Qed.

(** The translator returns for every query. *)
Lemma parse_natural_language_returns (query : pystr) :
  ∃ filters, parse_natural_language query = Return filters.
Proof.
  rewrite parse_natural_language_rules. cbv zeta.
  destruct (re_search length_re _) as [m|] eqn:Hm; [| eauto].
  apply length_match_group in Hm as (ds & n & _ & _ & _ & _ & _ & ->).
  eauto.
Qed.

Lemma str_in_longer (needle ext hay : pystr) :
  str_in needle hay = false → str_in (needle ++ ext) hay = false.
Proof.
  rewrite !str_in_false. intros Hno pre post ->.
  apply (Hno pre (ext ++ post)). by rewrite <- app_assoc.
Qed.

Lemma nl_filter_strings_empty (records : list StringRecord) :
  nl_filter_strings records ∅ = Return records.
Proof.
  induction records as [|r records IH]; [done |].
  cbn [nl_filter_strings]. rewrite map_to_list_empty. simpl.
  by rewrite IH.
Qed.

Lemma no_phrase_parse (query : pystr) :
  no_phrase (strip (str_lower query)) →
  parse_natural_language query = Return ∅.
Proof.
  intros [Hwords Hres]. rewrite parse_natural_language_rules. cbv zeta.
  set (ql := strip (str_lower query)) in *.
  assert (Hw : ∀ phrase,
            phrase ∈ [u "palindrom"; u "single word"; u "one word";
                      u "two word"; u "first vowel"] →
            str_in phrase ql = false).
  { intros phrase Hin. apply str_in_false. by apply Hwords. }
  assert (Hr : ∀ r, r ∈ [length_re; letter_re] → re_search r ql = None).
  { intros r Hin. apply re_search_None. by apply Hres. }
  rewrite (Hr length_re) by repeat constructor.
  unfold first_vowel_rule, letter_rule, word_count_rule, palindrome_rule.
  rewrite (Hr letter_re) by repeat constructor.
  cbn [existsb].
  change (u "palindromic") with (u "palindrom" ++ u "ic").
  rewrite (str_in_longer (u "palindrom") (u "ic")),
    !(Hw (u "palindrom")) by (try apply Hw; repeat constructor).
  rewrite (Hw (u "single word")), (Hw (u "one word")), (Hw (u "two word")),
    (Hw (u "first vowel")) by repeat constructor.
  done.
Qed.




(** C10. Whatever the query, the predicate of the translator stays in a
    small range: [is_palindrome], if set, is [True]; [max_length] is
    never set; [word_count], if set, is 1 or 2; [min_length], if set, is
    an integer of at least 1; [contains_character], if set, is a string
    of one letter from [a] to [z]. *)
Theorem parse_natural_language_range (query : pystr) (filters : Filters) :
  parse_natural_language query = Return filters →
  (∀ v, filters !! "is_palindrome" = Some v → v = VBool true)
  ∧ filters !! "max_length" = None
  ∧ (∀ v, filters !! "word_count" = Some v → v = VInt 1 ∨ v = VInt 2)
  ∧ (∀ v, filters !! "min_length" = Some v → ∃ n, v = VInt n ∧ 1 ≤ n)
  ∧ (∀ v, filters !! "contains_character" = Some v →
       ∃ c, v = VStr [c] ∧ (97 ≤ c ≤ 122)%N).
Proof.
  rewrite parse_natural_language_rules. cbv zeta.
  set (ql := strip (str_lower query)).
  assert (Hletter : ∀ (f : Filters) v,
    first_vowel_rule ql (letter_rule ql f) !! "contains_character" = Some v →
    f !! "contains_character" = None →
    ∃ c, v = VStr [c] ∧ (97 ≤ c ≤ 122)%N).
  { intros f v. unfold first_vowel_rule, letter_rule.
    destruct (str_in _ ql).
    - rewrite lookup_insert_eq. intros [= <-] _. exists 97%N.
      split; [done | lia].
    - destruct (re_search letter_re ql) as [m|] eqn:Hm.
      + apply letter_match_group in Hm as (c & Hc & ->).
        rewrite lookup_insert_eq. intros [= <-] _. exists c.
        split; [done |]. unfold chr_is_a_z in Hc.
        apply andb_true_iff in Hc as [?%N.leb_le ?%N.leb_le]. lia.
      + congruence. }
  assert (Hbase : ∀ key : string,
    word_count_rule ql (palindrome_rule ql ∅) !! key =
      if String.eqb key "is_palindrome"
      then palindrome_rule ql ∅ !! "is_palindrome"
      else if String.eqb key "word_count"
      then word_count_rule ql ∅ !! "word_count"
      else None).
  { intros key. destruct (String.eqb_spec key "is_palindrome") as [->|Hk1].
    - by rewrite word_count_rule_other.
    - destruct (String.eqb_spec key "word_count") as [->|Hk2].
      + unfold word_count_rule.
        destruct (_ || _); [by rewrite !lookup_insert_eq |].
        destruct (str_in _ ql); [by rewrite !lookup_insert_eq |].
        by rewrite palindrome_rule_other, !lookup_empty.
      + by rewrite word_count_rule_other, palindrome_rule_other,
          lookup_empty. }
  assert (Hpal : ∀ v, palindrome_rule ql ∅ !! "is_palindrome" = Some v →
                      v = VBool true).
  { intros v. unfold palindrome_rule. destruct (existsb _ _).
    - rewrite lookup_insert_eq. congruence.
    - by rewrite lookup_empty. }
  assert (Hwc : ∀ v, word_count_rule ql ∅ !! "word_count" = Some v →
                     v = VInt 1 ∨ v = VInt 2).
  { intros v. unfold word_count_rule. destruct (_ || _).
    - rewrite lookup_insert_eq. intros [= <-]. by left.
    - destruct (str_in _ ql).
      + rewrite lookup_insert_eq. intros [= <-]. by right.
      + by rewrite lookup_empty. }
  destruct (re_search length_re ql) as [m|] eqn:Hm.
  - apply length_match_group in Hm as (ds & n & _ & _ & _ & _ & Hn & ->).
    intros [= <-]. repeat split.
    + intros v. rewrite first_vowel_rule_other, letter_rule_other by done.
      rewrite lookup_insert_ne, Hbase by done. apply Hpal.
    + rewrite first_vowel_rule_other, letter_rule_other by done.
      by rewrite lookup_insert_ne, Hbase by done.
    + intros v. rewrite first_vowel_rule_other, letter_rule_other by done.
      rewrite lookup_insert_ne, Hbase by done. apply Hwc.
    + intros v. rewrite first_vowel_rule_other, letter_rule_other by done.
      rewrite lookup_insert_eq. intros [= <-]. exists (n + 1).
      split; [done | lia].
    + intros v Hv. apply (Hletter _ v Hv).
      by rewrite lookup_insert_ne, Hbase by done.
  - intros [= <-]. repeat split.
    + intros v. rewrite first_vowel_rule_other, letter_rule_other by done.
      rewrite Hbase. apply Hpal.
    + rewrite first_vowel_rule_other, letter_rule_other by done.
      by rewrite Hbase.
    + intros v. rewrite first_vowel_rule_other, letter_rule_other by done.
      rewrite Hbase. apply Hwc.
    + intros v. rewrite first_vowel_rule_other, letter_rule_other by done.
      by rewrite Hbase.
    + intros v Hv. apply (Hletter _ v Hv). by rewrite Hbase.
Qed.
End TranslatorFacts.

(** *** The translator on the queries of the specification *)

Example translate_gibberish :
  parse_natural_language (u "gibberish no filters here") = Return ∅.
Proof. vm_compute (parse_natural_language _). reflexivity. Qed.

Example translate_palindromic :
  parse_natural_language (u "palindromic strings")
  = Return (<["is_palindrome" := VBool true]> ∅).
Proof. vm_compute (parse_natural_language _). reflexivity. Qed.

Example translate_longer_than_5 :
  parse_natural_language (u "strings longer than 5")
  = Return (<["min_length" := VInt 6]> ∅).
Proof. vm_compute (parse_natural_language _). reflexivity. Qed.

Example translate_letter_x :
  parse_natural_language (u "contains the letter x")
  = Return (<["contains_character" := VStr (u "x")]> ∅).
Proof. vm_compute (parse_natural_language _). reflexivity. Qed.

(** Backtracking: "the" is not followed by whitespace, so the optional
    article is given up and its first letter is the one captured. *)
Example translate_backtracks :
  parse_natural_language (u "Containing them")
  = Return (<["contains_character" := VStr (u "t")]> ∅).
Proof. vm_compute (parse_natural_language _). reflexivity. Qed.

Example translate_first_match :
  parse_natural_language (u "longer than x, longer than 007 or longer than 9")
  = Return (<["min_length" := VInt 8]> ∅).
Proof. vm_compute (parse_natural_language _). reflexivity. Qed.

Example translate_letter_alone :
  parse_natural_language (u "strings containing the letter z")
  = Return (<["contains_character" := VStr (u "z")]> ∅).
Proof. vm_compute (parse_natural_language _). reflexivity. Qed.

Example translate_several_rules :
  parse_natural_language
    (u "  Two Word PALINDROMES longer than 10 that contain the letter q ")
  = Return (<["is_palindrome" := VBool true]>
             (<["word_count" := VInt 2]>
               (<["min_length" := VInt 11]>
                 (<["contains_character" := VStr (u "q")]> ∅)))).
Proof. vm_compute (parse_natural_language _). reflexivity. Qed.




Lemma parse_natural_language_range_witness :
  let filters : Filters :=
    <["is_palindrome" := VBool true]>
      (<["word_count" := VInt 1]>
        (<["min_length" := VInt 13]>
          (<["contains_character" := VStr (u "a")]> ∅))) in
  filters !! "max_length" = None
  ∧ (∀ v, filters !! "min_length" = Some v → ∃ n, v = VInt n ∧ 1 ≤ n).
Proof.
  intros filters.
  destruct (parse_natural_language_range
    (u "single word palindromes longer than 12 containing q, first vowel")
    filters) as (_ & Hmax & _ & Hmin & _).
  - vm_compute (parse_natural_language _). reflexivity.
  - by split.
Defined.

(** * Further properties *)

(** ** The store *)

(** X1. What [save_object] writes, [get_object] reads back under the
    same key and [exists] reports; every other key reads as before. *)
Theorem save_then_get (storage : FileStorage) (key key' : pystr)
    (obj : StringRecord) :
  get_object (save_object storage key obj) key'
    = (if decide (key = key') then Some obj else get_object storage key')
  ∧ exists_ (save_object storage key obj) key = true.
Proof.
  split.
  - destruct (decide (key = key')) as [<-|Hne].
    + apply get_after_save.
    + by apply get_after_save_other.
  - apply exists_true. rewrite get_after_save. eauto.
Qed.

(** X2. After [delete_object] the key is gone, whether it was there or
    not, and every other key reads as before. *)
Theorem delete_then_get (storage : FileStorage) (key key' : pystr) :
  get_object (delete_object storage key) key'
    = (if decide (key = key') then None else get_object storage key')
  ∧ exists_ (delete_object storage key) key = false.
Proof.
  assert (Hget : ∀ k, get_object (delete_object storage key) k
            = if decide (key = k) then None else get_object storage k).
  { intros k. unfold get_object, delete_object. cbv zeta.
    destruct (bool_decide _) eqn:Hex; simpl.
    - destruct (decide (key = k)) as [<-|Hne].
      + apply lookup_delete_eq.
      + by apply lookup_delete_ne.
    - destruct (decide (key = k)) as [<-|Hne]; [| done].
      apply bool_decide_eq_false in Hex.
      by apply eq_None_not_Some. }
  split; [apply Hget |].
  apply bool_decide_eq_false. fold (get_object (delete_object storage key) key).
  rewrite Hget, decide_True by done. by intros [? ?].
Qed.

(** X3. Deleting a key that is not stored writes nothing: the file is
    left as it is, also when it is missing or unreadable. *)
Theorem delete_absent_untouched (storage : FileStorage) (key : pystr) :
  get_object storage key = None →
  delete_object storage key = storage.
Proof.
  intros Hnone. unfold delete_object. cbv zeta.
  rewrite bool_decide_eq_false_2; [done |].
  unfold get_object in Hnone. rewrite Hnone. by intros [? ?].
Qed.

Lemma delete_absent_untouched_witness :
  delete_object None (u "0a1b") = None
  ∧ delete_object (save_object None (u "0a1b") (analyze_string [] (u "x")))
                  (u "ffff")
    = save_object None (u "0a1b") (analyze_string [] (u "x")).
Proof.
  split.
  - apply (delete_absent_untouched None (u "0a1b")). apply lookup_empty.
  - apply (delete_absent_untouched _ (u "ffff")).
    rewrite get_after_save_other; [apply lookup_empty | by vm_compute].
Defined.



(** X6. Saving under a key that was not stored and deleting it again
    gives back the content there was. *)
Theorem save_then_delete (storage : FileStorage) (key : pystr)
    (obj : StringRecord) :
  get_object storage key = None →
  all (delete_object (save_object storage key obj) key) = all storage.
Proof.
  intros Hnone. unfold delete_object. cbv zeta.
  rewrite bool_decide_eq_true_2.
  - unfold save_object. simpl. rewrite delete_insert_eq.
    by apply delete_id.
  - fold (get_object (save_object storage key obj) key).
    rewrite get_after_save. eauto.
Qed.

Lemma save_then_delete_witness :
  all (delete_object
         (save_object None (u "0a1b") (analyze_string [] (u "x")))
         (u "0a1b")) = ∅.
Proof.
  apply (save_then_delete None (u "0a1b")). apply lookup_empty.
Defined.

(** ** The routes on the store *)

Lemma all_values_length (storage : FileStorage) :
  length (all_values storage) = size (all storage).
Proof. unfold all_values. by rewrite length_fmap, length_map_to_list. Qed.

Lemma elem_of_all_values (storage : FileStorage) (r : StringRecord) :
  r ∈ all_values storage ↔ ∃ key, get_object storage key = Some r.
Proof.
  unfold all_values, get_object. rewrite list_elem_of_fmap. split.
  - intros ([key r'] & -> & Hin%elem_of_map_to_list). eauto.
  - intros [key Hkey]. exists (key, r). by rewrite elem_of_map_to_list.
Qed.

Lemma exists_false (storage : FileStorage) (key : pystr) :
  exists_ storage key = false ↔ get_object storage key = None.
Proof.
  unfold exists_, get_object. rewrite bool_decide_eq_false.
  by rewrite eq_None_not_Some.
Qed.

Lemma filter_strings_filter (records : list StringRecord)
    (is_palindrome : option bool) (min_length max_length : option Z)
    (word_count : option Z) (contains_character : option pystr) :
  filter_strings records is_palindrome min_length max_length word_count
                 contains_character
  = filter (λ r, matches r
              {| f_is_palindrome := is_palindrome;
                 f_min_length := min_length;
                 f_max_length := max_length;
                 f_word_count := word_count;
                 f_contains_character := contains_character |}) records.
Proof. unfold filter_strings. by rewrite filter_strings_from. Qed.

Section RouteFurther.
Context `{PyRuntime}.



(** X9. The lookup route answers 404 exactly when the id is not stored
    and otherwise hands back the stored record; it never answers with an
    empty body. *)
Theorem get_string_answers (storage : FileStorage) (string_value : pystr) :
  (get_string storage string_value
     = HTTPException 404 "String does not exist in the system"
   ↔ get_object storage (sha256_hash string_value) = None)
  ∧ (∀ r, get_string storage string_value = Ok (Some r)
          ↔ get_object storage (sha256_hash string_value) = Some r)
  ∧ get_string storage string_value ≠ Ok None.
Proof.
  unfold get_string.
  destruct (exists_ storage (sha256_hash string_value)) eqn:E; simpl.
  - apply exists_true in E as [r Hr]. rewrite Hr.
    split; [split; [done | congruence] |].
    split; [| congruence]. intros r'. split; congruence.
  - apply exists_false in E. rewrite E.
    split; [done |]. split; [| done]. intros r. split; congruence.
Qed.

(** X10. Deleting a string that is not stored answers 404 and leaves
    the file as it is. *)
Theorem delete_string_missing (storage : FileStorage)
    (string_value : pystr) :
  get_object storage (sha256_hash string_value) = None →
  delete_string storage string_value
  = (HTTPException 404 "String does not exist in the system", storage).
Proof.
  intros Hnone%exists_false. unfold delete_string. by rewrite Hnone.
Qed.

(** X11. Deleting a stored string succeeds and removes just that
    record: a lookup then answers 404, the store holds one record less,
    no other key is touched, and the string can be created anew. *)
Theorem delete_string_present (now : pystr) (storage : FileStorage)
    (string_value : pystr) :
  is_Some (get_object storage (sha256_hash string_value)) →
  (delete_string storage string_value).1 = Ok ()
  ∧ get_string (delete_string storage string_value).2 string_value
    = HTTPException 404 "String does not exist in the system"
  ∧ S (length (all_values (delete_string storage string_value).2))
    = length (all_values storage)
  ∧ (∀ key, key ≠ sha256_hash string_value →
       get_object (delete_string storage string_value).2 key
       = get_object storage key)
  ∧ (create_string now (delete_string storage string_value).2
       string_value).1
    = Ok (analyze_string now string_value).
Proof.
  intros Hsome. pose proof (proj2 (exists_true _ _) Hsome) as Hex.
  unfold delete_string. rewrite Hex. cbn [negb fst snd].
  set (id := sha256_hash string_value) in *.
  assert (Hgone : get_object (delete_object storage id) id = None).
  { unfold get_object, delete_object. cbv zeta.
    unfold exists_ in Hex. rewrite Hex. simpl. apply lookup_delete_eq. }
  split; [done |]. split; [| split; [| split]].
  - unfold get_string. fold id. by rewrite (proj2 (exists_false _ _) Hgone).
  - rewrite !all_values_length. unfold delete_object. cbv zeta.
    unfold exists_ in Hex. rewrite Hex. simpl.
    destruct Hsome as [r Hr]. unfold get_object in Hr.
    rewrite <- (insert_delete_id (all storage) id r Hr) at 2.
    by rewrite map_size_insert_None by apply lookup_delete_eq.
  - intros key Hne. unfold get_object, delete_object. cbv zeta.
    unfold exists_ in Hex. rewrite Hex. simpl. by apply lookup_delete_ne.
  - unfold create_string. fold id.
    by rewrite (proj2 (exists_false _ _) Hgone).
Qed.


Lemma well_formed_None : well_formed None.
Proof. intros key r. simpl. by rewrite lookup_empty. Qed.

Lemma well_formed_create (now : pystr) (storage : FileStorage)
    (value : pystr) :
  well_formed storage → well_formed (create_string now storage value).2.
Proof.
  intros Hwf. unfold create_string.
  destruct (exists_ storage (sha256_hash value)); [done |].
  intros key r. cbn [snd]. unfold save_object. simpl.
  destruct (decide (sha256_hash value = key)) as [<-|Hne].
  - rewrite lookup_insert_eq. by intros [= <-].
  - rewrite lookup_insert_ne by done. apply Hwf.
Qed.

Lemma well_formed_delete (storage : FileStorage) (string_value : pystr) :
  well_formed storage → well_formed (delete_string storage string_value).2.
Proof.
  intros Hwf. unfold delete_string.
  destruct (exists_ storage _); [| done]. cbn [negb snd].
  intros key r. unfold delete_object. cbv zeta.
  destruct (bool_decide _); [| apply Hwf]. simpl.
  destruct (decide (sha256_hash string_value = key)) as [<-|Hne].
  - by rewrite lookup_delete_eq.
  - rewrite lookup_delete_ne by done. apply Hwf.
Qed.

(** X13. The routes keep the store well formed: starting from no file,
    after any creations and deletions every record sits under the
    fingerprint of its own string and is the analysis of that string; so
    a record handed out by the lookup route carries the fingerprint asked
    for and properties that fit its value. *)
Theorem routes_keep_well_formed :
  well_formed None
  ∧ (∀ now storage value,
       well_formed storage →
       well_formed (create_string now storage value).2)
  ∧ (∀ storage string_value,
       well_formed storage →
       well_formed (delete_string storage string_value).2)
  ∧ (∀ storage string_value r,
       well_formed storage →
       get_string storage string_value = Ok (Some r) →
       rec_id r = sha256_hash string_value
       ∧ sha256_hash (rec_value r) = sha256_hash string_value
       ∧ prop_length (rec_properties r) = Z.of_nat (length (rec_value r))
       ∧ prop_character_frequency_map (rec_properties r)
         = character_frequency_map (rec_value r)).
Proof.
  split; [apply well_formed_None |].
  split; [apply well_formed_create |].
  split; [apply well_formed_delete |].
  intros storage string_value r Hwf. unfold get_string.
  destruct (exists_ storage _); [| done]. simpl. intros [= Hr].
  destruct (Hwf _ _ Hr) as [Hkey Hana].
  assert (Hid : rec_id r = sha256_hash (rec_value r)) by by rewrite Hana.
  assert (Hlen : prop_length (rec_properties r)
                 = Z.of_nat (length (rec_value r))) by by rewrite Hana.
  assert (Hfreq : prop_character_frequency_map (rec_properties r)
                  = character_frequency_map (rec_value r))
    by by rewrite Hana.
  by rewrite Hid, <- Hkey.
Qed.

(** X29. In a well-formed store the listing speaks of the stored
    strings themselves: a record is handed out exactly when it is stored
    and its value meets every given criterion, the length counted in
    characters, the words as [split] finds them, the palindrome test on
    the lower-cased alphanumeric characters, the substring looked for in
    the value as it was sent. *)
Theorem listing_speaks_of_values (storage : FileStorage)
    (p : FilterPredicate) (r : StringRecord) :
  well_formed storage →
  let v := rec_value r in
  r ∈ filter_strings (all_values storage) (f_is_palindrome p)
        (f_min_length p) (f_max_length p) (f_word_count p)
        (f_contains_character p)
  ↔ (∃ key, get_object storage key = Some r)
    ∧ holds (f_is_palindrome p)
        (λ b, (if b then cleaned_value v = rev (cleaned_value v)
               else cleaned_value v ≠ rev (cleaned_value v)))
    ∧ holds (f_min_length p) (λ n, n ≤ Z.of_nat (length v))
    ∧ holds (f_max_length p) (λ n, Z.of_nat (length v) ≤ n)
    ∧ holds (f_word_count p) (λ n, Z.of_nat (length (split v)) = n)
    ∧ holds (f_contains_character p) (λ c, ∃ pre post, v = pre ++ c ++ post).
Proof.
  intros Hwf v. rewrite filter_strings_filter, list_elem_of_filter.
  rewrite elem_of_all_values, (comm and).
  assert (Hrec : (∃ key, get_object storage key = Some r) →
            r = analyze_string (rec_created_at r) v).
  { intros [key Hkey]. by destruct (Hwf key r Hkey). }
  split.
  - intros [Hstored (M1 & M2 & M3 & M4 & M5)]. split; [done |].
    rewrite (Hrec Hstored) in M1, M2, M3, M4. simpl in *.
    destruct p as [ip mn mx wc cc]. simpl in *.
    repeat split; try done.
    intros b ->. specialize (M1 b eq_refl). simpl in M1.
    unfold str_eq, str_reversed in M1.
    destruct b.
    + by apply bool_decide_eq_true in M1.
    + by apply bool_decide_eq_false in M1.
  - intros (Hstored & H1 & H2 & H3 & H4 & H5). split; [done |].
    unfold matches. rewrite (Hrec Hstored).
    destruct p as [ip mn mx wc cc]. simpl in *.
    repeat split; try done.
    intros b ->. specialize (H1 b eq_refl). simpl in H1.
    unfold str_eq, str_reversed. destruct b.
    + by apply bool_decide_eq_true.
    + by apply bool_decide_eq_false.
Qed.
End RouteFurther.

Lemma listing_speaks_of_values_witness :
  let t := u "2026-01-01T00:00:00+00:00" in
  let storage := (create_string t None (u "racecar")).2 in
  analyze_string t (u "racecar")
    ∈ filter_strings (all_values storage) (Some true) (Some 5) None None
                     None.
Proof.
  intros t storage.
  refine (proj2 (listing_speaks_of_values storage
                   {| f_is_palindrome := Some true; f_min_length := Some 5;
                      f_max_length := None; f_word_count := None;
                      f_contains_character := None |}
                   (analyze_string t (u "racecar")) _) _).
  - apply well_formed_create, well_formed_None.
  - split; [| split; [| split; [| repeat split; by intros ?]]].
    + exists (sha256_hash (u "racecar")). unfold storage, create_string.
      rewrite exists_missing_file. apply get_after_save.
    + intros b [= <-]. vm_compute. reflexivity.
    + intros n [= <-]. vm_compute. discriminate.
Defined.


Lemma delete_string_missing_witness :
  delete_string None (u "does not exist")
  = (HTTPException 404 "String does not exist in the system", None).
Proof.
  apply (delete_string_missing None (u "does not exist")).
  apply lookup_empty.
Defined.

Lemma delete_string_present_witness :
  let t := u "2026-01-01T00:00:00+00:00" in
  let storage :=
    save_object None (sha256_hash (u "delete me"))
                (analyze_string t (u "delete me")) in
  get_string (delete_string storage (u "delete me")).2 (u "delete me")
  = HTTPException 404 "String does not exist in the system".
Proof.
  intros t storage.
  destruct (delete_string_present t storage (u "delete me"))
    as (_ & Hgone & _); [| exact Hgone].
  unfold storage. rewrite get_after_save. eauto.
Defined.


(** ** Listing and filtering *)

Lemma filter_none_match {A} (P : A → Prop) `{∀ x, Decision (P x)}
    (l : list A) :
  (∀ x, ¬ P x) → filter P l = [].
Proof.
  intros HP. induction l as [|x l IH]; [done |].
  rewrite filter_cons, decide_False by apply HP. exact IH.
Qed.

(** X14. The listing route always answers: [count] is the number of
    records handed out, never more than the store holds, and
    [filters_applied] repeats the parameters that were given, under their
    own names, and nothing else. *)
Theorem get_all_strings_body (storage : FileStorage)
    (is_palindrome : option bool) (min_length max_length : option Z)
    (word_count : option Z) (contains_character : option pystr) :
  ∃ body,
    get_all_strings storage is_palindrome min_length max_length
                    word_count contains_character = Ok body
    ∧ count body = Z.of_nat (length (data body))
    ∧ (length (data body) ≤ size (all storage))%nat
    ∧ filters_applied body !! "is_palindrome" = VBool <$> is_palindrome
    ∧ filters_applied body !! "min_length" = VInt <$> min_length
    ∧ filters_applied body !! "max_length" = VInt <$> max_length
    ∧ filters_applied body !! "word_count" = VInt <$> word_count
    ∧ filters_applied body !! "contains_character"
      = VStr <$> contains_character
    ∧ ∀ key : string,
        key ∉ ["is_palindrome"; "min_length"; "max_length"; "word_count";
               "contains_character"] →
        filters_applied body !! key = None.
Proof.
  eexists. split; [reflexivity |]. cbn [data count filters_applied].
  split; [done |]. split.
  { rewrite filter_strings_filter, <- all_values_length.
    apply length_filter. }
  repeat split;
    try (destruct is_palindrome, min_length, max_length, word_count,
           contains_character; simpl;
         repeat first [ rewrite lookup_insert_eq
                      | rewrite lookup_insert_ne by done
                      | rewrite lookup_empty ]; reflexivity).
  intros key Hkey.
  assert (Hne : ∀ k, k ∈ ["is_palindrome"; "min_length"; "max_length";
                          "word_count"; "contains_character"] → k ≠ key).
  { intros k Hk ->. by apply Hkey. }
  destruct is_palindrome, min_length, max_length, word_count,
    contains_character; simpl;
    repeat first [ rewrite lookup_insert_ne
                     by (apply Hne; repeat constructor)
                 | rewrite lookup_empty ]; reflexivity.
Qed.

(** X15. Bounds that contradict each other are no error: when
    [max_length] is below [min_length] the listing is empty, whatever
    the other filters and the store. *)
Theorem contradictory_bounds_empty (storage : FileStorage)
    (is_palindrome : option bool) (min_length max_length : Z)
    (word_count : option Z) (contains_character : option pystr) :
  max_length < min_length →
  ∃ body,
    get_all_strings storage is_palindrome (Some min_length)
                    (Some max_length) word_count contains_character
    = Ok body
    ∧ data body = [] ∧ count body = 0.
Proof.
  intros Hlt. eexists. split; [reflexivity |]. cbn [data count].
  rewrite filter_strings_filter, filter_none_match; [done |].
  intros r (_ & Hmin & Hmax & _).
  specialize (Hmin min_length eq_refl). specialize (Hmax max_length eq_refl).
  simpl in *. lia.
Qed.

Lemma contradictory_bounds_empty_witness :
  let t := u "2026-01-01T00:00:00+00:00" in
  let storage := (create_string t None (u "hello world")).2 in
  ∃ body,
    get_all_strings storage None (Some 12) (Some 11) None None = Ok body
    ∧ data body = [] ∧ count body = 0.
Proof.
  intros t storage.
  apply (contradictory_bounds_empty storage None 12 11 None None). lia.
Defined.

(** X16. Filtering what a filter handed out keeps the records that
    satisfy both predicates, in the order of the input; the two filters
    can be applied in either order, and applying one twice changes
    nothing. *)
Theorem filter_strings_compose (records : list StringRecord)
    (p q : FilterPredicate) :
  let apply_filter (x : FilterPredicate) (l : list StringRecord) :=
    filter_strings l (f_is_palindrome x) (f_min_length x) (f_max_length x)
                   (f_word_count x) (f_contains_character x) in
  apply_filter q (apply_filter p records)
    = filter (λ r, matches r q ∧ matches r p) records
  ∧ apply_filter q (apply_filter p records)
    = apply_filter p (apply_filter q records)
  ∧ apply_filter p (apply_filter p records) = apply_filter p records.
Proof.
  intros apply_filter.
  assert (Hf : ∀ x l, apply_filter x l = filter (λ r, matches r x) l).
  { intros x l. unfold apply_filter. rewrite filter_strings_filter.
    by destruct x. }
  rewrite !Hf, !list_filter_filter. split; [done |]. split.
  - apply list_filter_iff. tauto.
  - apply list_filter_iff. tauto.
Qed.

(** ** The natural-language route *)

Lemma entry_rejects_typed (r : StringRecord) (filters : Filters)
    (key : string) (v : filter_value) :
  well_typed filters → filters !! key = Some v →
  entry_rejects r (key, v) = Return (entry_fails r key v).
Proof.
  intros (Hpal & Hwc & Hmin & Hcc) Hkv. unfold entry_rejects, entry_fails.
  destruct (String.eqb_spec key "is_palindrome") as [->|_].
  { destruct (Hpal v Hkv) as [b ->]. simpl.
    by destruct (negb _). }
  destruct (String.eqb_spec key "word_count") as [->|_].
  { destruct (Hwc v Hkv) as [n ->]. simpl.
    destruct (negb _); [done |]. by rewrite orb_false_r. }
  destruct (String.eqb_spec key "min_length") as [->|_].
  { destruct (Hmin v Hkv) as [n ->]. simpl. by destruct (_ <? _). }
  destruct (String.eqb_spec key "contains_character") as [->|_].
  { destruct (Hcc v Hkv) as [c ->]. simpl. by destruct (negb _). }
  simpl. by destruct v.
Qed.

Lemma record_matches_all (r : StringRecord)
    (items : list (string * filter_value)) :
  (∀ e, e ∈ items → entry_rejects r e = Return false) →
  record_matches r items = Return true.
Proof.
  induction items as [|e items IH]; intros Hall; [done |].
  simpl. rewrite (Hall e) by left. apply IH.
  intros e' He'. apply Hall. by right.
Qed.

Lemma record_matches_some (r : StringRecord)
    (items : list (string * filter_value)) :
  (∀ e, e ∈ items → ∃ b, entry_rejects r e = Return b) →
  (∃ e, e ∈ items ∧ entry_rejects r e = Return true) →
  record_matches r items = Return false.
Proof.
  induction items as [|e items IH]; intros Hall (e0 & Hin & Hrej).
  { by apply elem_of_nil in Hin. }
  simpl. destruct (Hall e) as [[|] Hb]; [by left | by rewrite Hb |].
  rewrite Hb. apply IH.
  - intros e' He'. apply Hall. by right.
  - apply elem_of_cons in Hin as [-> | Hin]; [congruence | eauto].
Qed.

(** A record matches the predicate of a well-typed dictionary exactly
    when none of its entries rules the record out. *)
Lemma matches_predicate_of (r : StringRecord) (filters : Filters) :
  well_typed filters →
  matches r (predicate_of filters) ↔
  ∀ key v, filters !! key = Some v → entry_fails r key v = false.
Proof.
  intros Hty. pose proof Hty as (Hpal & Hwc & Hmin & Hcc). split.
  - intros (M1 & M2 & _ & M4 & M5) key v Hkv.
    unfold entry_fails. simpl in *.
    destruct (String.eqb_spec key "is_palindrome") as [->|_].
    { destruct (Hpal v Hkv) as [b ->]. simpl.
      rewrite Hkv in M1. rewrite (M1 b eq_refl). by destruct b. }
    destruct (String.eqb_spec key "word_count") as [->|_].
    { destruct (Hwc v Hkv) as [n ->]. simpl.
      rewrite Hkv in M4. rewrite (M4 n eq_refl), Z.eqb_refl. done. }
    destruct (String.eqb_spec key "min_length") as [->|_].
    { destruct (Hmin v Hkv) as [n ->]. simpl.
      rewrite Hkv in M2. specialize (M2 n eq_refl). simpl in M2.
      apply Z.ltb_ge. lia. }
    destruct (String.eqb_spec key "contains_character") as [->|_].
    { destruct (Hcc v Hkv) as [c ->]. simpl.
      rewrite Hkv in M5. specialize (M5 c eq_refl).
      apply str_in_spec in M5. by rewrite M5. }
    by destruct v.
  - intros Hall. repeat split; simpl.
    + intros b Hb. destruct (filters !! "is_palindrome") as [[| b' | |]|]
        eqn:Hkv; simplify_eq.
      specialize (Hall _ _ Hkv). simpl in Hall.
      apply negb_false_iff in Hall. by apply eqb_prop.
    + intros n Hn. destruct (filters !! "min_length") as [[| | n' |]|]
        eqn:Hkv; simplify_eq.
      specialize (Hall _ _ Hkv). simpl in Hall.
      apply Z.ltb_ge in Hall. lia.
    + by intros ?.
    + intros n Hn. destruct (filters !! "word_count") as [[| | n' |]|]
        eqn:Hkv; simplify_eq.
      specialize (Hall _ _ Hkv). simpl in Hall.
      rewrite orb_false_r in Hall. apply negb_false_iff in Hall.
      by apply Z.eqb_eq.
    + intros c Hc.
      destruct (filters !! "contains_character") as [[| | | c']|]
        eqn:Hkv; simplify_eq.
      specialize (Hall _ _ Hkv). simpl in Hall.
      apply negb_false_iff in Hall. by apply str_in_spec.
Qed.

Lemma record_matches_typed (r : StringRecord) (filters : Filters) :
  well_typed filters →
  record_matches r (map_to_list filters)
  = Return (bool_decide (matches r (predicate_of filters))).
Proof.
  intros Hty.
  assert (Hentry : ∀ e, e ∈ map_to_list filters →
            entry_rejects r e = Return (entry_fails r e.1 e.2)).
  { intros [key v] Hin%elem_of_map_to_list.
    by apply (entry_rejects_typed r filters). }
  destruct (decide (matches r (predicate_of filters))) as [Hm|Hn].
  - rewrite bool_decide_eq_true_2 by done. apply record_matches_all.
    intros [key v] Hin. rewrite (Hentry _ Hin). simpl. f_equal.
    apply elem_of_map_to_list in Hin.
    by apply (proj1 (matches_predicate_of r filters Hty) Hm).
  - rewrite bool_decide_eq_false_2 by done. apply record_matches_some.
    + intros e Hin. rewrite (Hentry _ Hin). eauto.
    + destruct (decide (Exists (λ e, entry_fails r e.1 e.2 = true)
                                (map_to_list filters)))
        as [(e & Hin & Hfail)%Exists_exists | Hnone].
      * exists e. split; [done |]. by rewrite (Hentry _ Hin), Hfail.
      * exfalso. apply Hn. apply matches_predicate_of; [done |].
        intros key v Hkv. apply not_true_is_false. intros Hfail.
        apply Hnone, Exists_exists. exists (key, v).
        by rewrite elem_of_map_to_list.
Qed.

Lemma nl_filter_strings_filter (records : list StringRecord)
    (filters : Filters) :
  well_typed filters →
  nl_filter_strings records filters
  = Return (filter (λ r, matches r (predicate_of filters)) records).
Proof.
  intros Hty. induction records as [|r records IH]; [done |].
  cbn [nl_filter_strings]. rewrite (record_matches_typed r filters Hty), IH.
  simpl. rewrite filter_cons.
  destruct (decide (matches r (predicate_of filters))) as [Hm|Hn].
  - by rewrite bool_decide_eq_true_2.
  - by rewrite bool_decide_eq_false_2.
Qed.

(** X17. On a dictionary whose entries have the types the translator
    gives them, the loops of the natural-language route raise nothing and
    keep, in the order of the input, exactly the records that match the
    predicate the dictionary stands for: the fields [is_palindrome],
    [min_length], [word_count] and [contains_character]; an entry
    [max_length] or of any other name is passed over. *)
Theorem nl_filter_strings_matches (records : list StringRecord)
    (filters : Filters) :
  well_typed filters →
  nl_filter_strings records filters
  = Return (filter (λ r, matches r (predicate_of filters)) records).
Proof. apply nl_filter_strings_filter. Qed.

Lemma nl_filter_strings_matches_witness :
  let t := u "2026-01-01T00:00:00+00:00" in
  let racecar := analyze_string t (u "racecar") in
  let hello := analyze_string t (u "hello world") in
  let filters : Filters :=
    <["is_palindrome" := VBool true]> (<["max_length" := VInt 3]> ∅) in
  nl_filter_strings [racecar; hello] filters = Return [racecar].
Proof.
  intros t racecar hello filters.
  rewrite (nl_filter_strings_matches [racecar; hello] filters).
  - vm_compute. reflexivity.
  - unfold filters. repeat split; intros v;
      repeat first [ rewrite lookup_insert_eq
                   | rewrite lookup_insert_ne by done
                   | rewrite lookup_empty ];
      intros [= <-]; eauto.
Defined.

Section TranslatorFurther.
Context `{PyRuntime}.

Lemma str_in_palindromic (ql : pystr) :
  existsb (λ word, str_in word ql) [u "palindrom"; u "palindromic"]
  = str_in (u "palindrom") ql.
Proof.
  cbn [existsb]. rewrite orb_false_r.
  destruct (str_in (u "palindrom") ql) eqn:E; [done |].
  change (u "palindromic") with (u "palindrom" ++ u "ic").
  by apply str_in_longer.
Qed.

(** The dictionary of the translator, key by key. *)
Lemma parse_natural_language_lookup (query : pystr) :
  ∃ filters,
    parse_natural_language query = Return filters
    ∧ ∀ key, filters !! key = translated (strip (str_lower query)) key.
Proof.
  rewrite parse_natural_language_rules. cbv zeta.
  set (ql := strip (str_lower query)).
  assert (Hbase : ∀ key : string,
    key ≠ "min_length" → key ≠ "contains_character" →
    word_count_rule ql (palindrome_rule ql ∅) !! key = translated ql key).
  { intros key Hk1 Hk2. unfold translated.
    destruct (String.eqb_spec key "is_palindrome") as [->|Hk3].
    { rewrite word_count_rule_other by done. unfold palindrome_rule.
      rewrite str_in_palindromic. destruct (str_in _ ql); [| done].
      by rewrite lookup_insert_eq. }
    destruct (String.eqb_spec key "word_count") as [->|Hk4].
    { unfold word_count_rule.
      destruct (_ || _); [by rewrite lookup_insert_eq |].
      destruct (str_in _ ql); [by rewrite lookup_insert_eq |].
      by rewrite palindrome_rule_other, lookup_empty. }
    destruct (String.eqb_spec key "min_length") as [->|_]; [done |].
    destruct (String.eqb_spec key "contains_character") as [->|_]; [done |].
    by rewrite word_count_rule_other, palindrome_rule_other, lookup_empty. }
  assert (Hletter : ∀ f : Filters,
    f !! "contains_character" = None →
    first_vowel_rule ql (letter_rule ql f) !! "contains_character"
    = translated ql "contains_character").
  { intros f Hf. unfold translated, first_vowel_rule, letter_rule. simpl.
    destruct (str_in _ ql); [by rewrite lookup_insert_eq |].
    destruct (re_search letter_re ql); [by rewrite lookup_insert_eq | done]. }
  assert (Hbase_cc :
    word_count_rule ql (palindrome_rule ql ∅) !! "contains_character"
    = None).
  { by rewrite word_count_rule_other, palindrome_rule_other, lookup_empty. }
  assert (Hbase_min :
    word_count_rule ql (palindrome_rule ql ∅) !! "min_length" = None).
  { by rewrite word_count_rule_other, palindrome_rule_other, lookup_empty. }
  destruct (re_search length_re ql) as [m|] eqn:Hm.
  - destruct (length_match_group _ _ Hm)
      as (ds & n & _ & _ & _ & _ & _ & Hint).
    rewrite Hint. eexists. split; [done |]. intros key.
    destruct (decide (key = "contains_character")) as [->|Hcc].
    { apply Hletter. by rewrite lookup_insert_ne. }
    rewrite first_vowel_rule_other, letter_rule_other by done.
    destruct (decide (key = "min_length")) as [->|Hmin].
    { rewrite lookup_insert_eq. unfold translated. simpl.
      by rewrite Hm, Hint. }
    rewrite lookup_insert_ne by done. by apply Hbase.
  - eexists. split; [done |]. intros key.
    destruct (decide (key = "contains_character")) as [->|Hcc].
    { by apply Hletter. }
    rewrite first_vowel_rule_other, letter_rule_other by done.
    destruct (decide (key = "min_length")) as [->|Hmin].
    { rewrite Hbase_min. unfold translated. simpl. by rewrite Hm. }
    by apply Hbase.
Qed.

Lemma translated_well_typed (ql : pystr) (filters : Filters) :
  (∀ key, filters !! key = translated ql key) → well_typed filters.
Proof.
  intros Hl. repeat split; intros v; rewrite Hl; unfold translated; simpl.
  - destruct (str_in _ ql); intros [= <-]. eauto.
  - destruct (_ || _); [intros [= <-]; eauto |].
    destruct (str_in _ ql); intros [= <-]. eauto.
  - destruct (re_search length_re ql) as [m|]; [| done].
    destruct (int_group1 m); intros [= <-]. eauto.
  - destruct (str_in _ ql); [intros [= <-]; eauto |].
    destruct (re_search letter_re ql) as [m|] eqn:Hm; [| done].
    apply letter_match_group in Hm as (c & _ & ->). intros [= <-]. eauto.
Qed.


Lemma translated_is_palindrome (ql : pystr) :
  translated ql "is_palindrome"
  = if str_in (u "palindrom") ql then Some (VBool true) else None.
Proof. reflexivity. Qed.

Lemma translated_word_count (ql : pystr) :
  translated ql "word_count"
  = if str_in (u "single word") ql || str_in (u "one word") ql
    then Some (VInt 1)
    else if str_in (u "two word") ql then Some (VInt 2) else None.
Proof. reflexivity. Qed.

Lemma translated_min_length (ql : pystr) :
  translated ql "min_length"
  = match re_search length_re ql with
    | Some m => match int_group1 m with
                | Return n => Some (VInt (n + 1))
                | Raise _ => None
                end
    | None => None
    end.
Proof. reflexivity. Qed.

Lemma translated_contains_character (ql : pystr) :
  translated ql "contains_character"
  = if str_in (u "first vowel") ql then Some (VStr (u "a"))
    else match re_search letter_re ql with
         | Some m => Some (group1_value m)
         | None => None
         end.
Proof. reflexivity. Qed.



Lemma length_re_digit (d : N) :
  is_digit d → matches_re length_re (u "longer than " ++ [d]) None (Some [d]).
Proof.
  intros Hd. unfold length_re. apply (M_Cat _ _ _ _ None None).
  - constructor.
  - apply M_Group with (g' := None). constructor; [done |].
    by repeat constructor.
Qed.


Lemma letter_re_plain (ws : pystr) (c : N) :
  ws ≠ [] → Forall is_space ws → chr_is_a_z c = true →
  matches_re letter_re (u "contain" ++ ws ++ [c]) None (Some [c]).
Proof.
  intros Hne Hws Hc. unfold letter_re.
  apply (M_Cat _ _ _ _ None None); [constructor |].
  apply (M_Cat _ _ [] _ None None); [apply M_OptNone |].
  apply (M_Cat _ _ _ _ None None); [by constructor |].
  apply (M_Cat _ _ [] _ None None); [apply M_OptNone |].
  apply (M_Cat _ _ [] _ None None); [apply M_OptNone |].
  apply M_Group with (g' := None). by constructor.
Qed.


End TranslatorFurther.

(** ** The handler of validation errors *)

Lemma loc_has_spec (key : string) (error_loc : list loc_item) :
  loc_has key error_loc = true ↔ LocStr key ∈ error_loc.
Proof.
  unfold loc_has. rewrite existsb_exists. split.
  - intros ([s|n] & Hin & Heq); [| done].
    apply String.eqb_eq in Heq as ->. by apply list_elem_of_In.
  - intros Hin. exists (LocStr key). split; [by apply list_elem_of_In |].
    apply String.eqb_refl.
Qed.

Lemma type_is_spec (error_type : option string) (t : string) :
  type_is error_type t = true ↔ error_type = Some t.
Proof.
  destruct error_type as [t'|]; simpl; [| done].
  rewrite String.eqb_eq. split; congruence.
Qed.

Lemma handler_skips (e : ValidationError) (errors : list ValidationError) :
  ¬ decisive e →
  validation_exception_handler (e :: errors)
  = validation_exception_handler errors.
Proof.
  intros Hnd. cbn [validation_exception_handler]. cbv zeta.
  destruct (loc_has "value" (err_loc e)) eqn:Hloc; [| done].
  apply loc_has_spec in Hloc.
  destruct (type_is (err_type e) "missing") eqn:Hmiss.
  { apply type_is_spec in Hmiss. destruct Hnd. split; [done | by left]. }
  cbn [existsb].
  destruct (type_is (err_type e) "string_type") eqn:Hst.
  { apply type_is_spec in Hst. destruct Hnd.
    split; [done |]. right. by left. }
  destruct (type_is (err_type e) "str_type") eqn:Hs.
  { apply type_is_spec in Hs. destruct Hnd.
    split; [done |]. right. by right. }
  done.
Qed.

(** X24. The handler answers at the first error that is about the
    field [value] and says that it is missing (400) or not a string
    (422); errors before it that are neither do not count, and without
    such an error the answer is 400.  It never answers with another
    status. *)
Theorem validation_handler_first_decisive
    (errors : list ValidationError) :
  (Forall (λ e, ¬ decisive e) errors →
   validation_exception_handler errors = missing_value_response)
  ∧ (∀ before e after,
       errors = before ++ e :: after →
       Forall (λ e, ¬ decisive e) before → about_value e →
       (missing_error e →
        validation_exception_handler errors = missing_value_response)
       ∧ (string_type_error e →
          validation_exception_handler errors = invalid_type_response))
  ∧ (resp_status_code (validation_exception_handler errors) = 400
     ∨ resp_status_code (validation_exception_handler errors) = 422).
Proof.
  split; [| split].
  - induction 1 as [|e errors' He _ IH]; [done |].
    by rewrite handler_skips.
  - intros before e after -> Hbefore Hloc%loc_has_spec.
    induction Hbefore as [|e' before He' _ IH].
    + cbn [app validation_exception_handler]. cbv zeta. rewrite Hloc.
      split.
      * intros Hm%type_is_spec. by rewrite Hm.
      * intros Hs. destruct (type_is (err_type e) "missing") eqn:Hm.
        { apply type_is_spec in Hm. destruct Hs; congruence. }
        cbn [existsb]. destruct Hs as [Hs|Hs]; apply type_is_spec in Hs;
          rewrite Hs; by rewrite ?orb_true_r.
    + cbn [app]. by rewrite handler_skips.
  - induction errors as [|e errors' IH]; [by left |].
    cbn [validation_exception_handler]. cbv zeta.
    destruct (loc_has _ _); [| done].
    destruct (type_is _ "missing"); [by left |].
    destruct (existsb _ _); [by right | done].
Qed.

Example handler_type_error_first :
  validation_exception_handler
    [ {| err_type := Some "json_invalid"; err_loc := [LocStr "body"] |};
      {| err_type := Some "string_type";
         err_loc := [LocStr "body"; LocStr "value"] |};
      {| err_type := Some "missing";
         err_loc := [LocStr "body"; LocStr "value"] |} ]
  = invalid_type_response.
Proof. reflexivity. Qed.

(** ** The analyzer, further *)

Lemma count_occ_elem_of (s : pystr) (c : N) :
  c ∈ s ↔ (0 < count_occ N.eq_dec s c)%nat.
Proof. rewrite list_elem_of_In. apply count_occ_In. Qed.

Lemma length_remove_dups_le (s : pystr) :
  (length (remove_dups s) ≤ length s)%nat.
Proof.
  induction s as [|c s IH]; simpl; [done |].
  destruct (decide_rel _ c s); simpl; lia.
Qed.

Lemma size_list_to_set_remove_dups (s : pystr) :
  size (list_to_set s : gset N) = length (remove_dups s).
Proof.
  rewrite <- (size_list_to_set (C := gset N) (remove_dups s))
    by apply NoDup_remove_dups.
  f_equal. apply set_eq. intros c.
  by rewrite !elem_of_list_to_set, elem_of_remove_dups.
Qed.

Lemma count_occ_le_length (s : pystr) (c : N) :
  (count_occ N.eq_dec s c ≤ length s)%nat.
Proof.
  induction s as [|a s IH]; simpl; [done |].
  destruct (N.eq_dec a c); lia.
Qed.

(** X25. The frequency map of a record gives every character of the
    value its number of occurrences, between 1 and the length of the
    value, and has no entry for a character that does not occur. *)
Theorem frequency_counts_occurrences `{PyRuntime} (now s : pystr)
    (c : N) :
  let freq :=
    prop_character_frequency_map (rec_properties (analyze_string now s)) in
  let n := Z.of_nat (count_occ N.eq_dec s c) in
  (c ∈ s → freq !! c = Some n ∧ 1 ≤ n ≤ Z.of_nat (length s))
  ∧ (c ∉ s → freq !! c = None).
Proof.
  simpl. rewrite character_frequency_map_lookup. split.
  - intros Hin. rewrite decide_True by done. split; [done |].
    apply count_occ_elem_of in Hin.
    pose proof (count_occ_le_length s c). lia.
  - intros Hnin. by rewrite decide_False.
Qed.

Lemma character_frequency_map_count (s : pystr) (c : N) :
  default 0 (character_frequency_map s !! c)
  = Z.of_nat (count_occ N.eq_dec s c).
Proof.
  rewrite character_frequency_map_lookup.
  destruct (decide (c ∈ s)) as [Hin|Hnin]; [done |].
  rewrite list_elem_of_In in Hnin.
  apply (count_occ_not_In N.eq_dec) in Hnin. by rewrite Hnin.
Qed.

(** X26. Frequencies add up over concatenation, and the frequency map
    does not depend on the order of the characters: two values that are
    rearrangements of each other have the same map. *)
Theorem frequency_map_additive :
  (∀ (s1 s2 : pystr) (c : N),
     default 0 (character_frequency_map (s1 ++ s2) !! c)
     = default 0 (character_frequency_map s1 !! c)
       + default 0 (character_frequency_map s2 !! c))
  ∧ (∀ s1 s2 : pystr,
       s1 ≡ₚ s2 → character_frequency_map s1 = character_frequency_map s2).
Proof.
  split.
  - intros s1 s2 c. rewrite !character_frequency_map_count, count_occ_app.
    lia.
  - intros s1 s2 Hperm. apply map_eq. intros c.
    rewrite !character_frequency_map_lookup.
    rewrite (proj1 (Permutation_count_occ N.eq_dec s1 s2) Hperm c).
    apply decide_ext. by rewrite Hperm.
Qed.

Lemma frequency_map_additive_witness :
  character_frequency_map (u "listen") = character_frequency_map (u "silent").
Proof.
  destruct frequency_map_additive as [_ Hperm]. apply Hperm.
  apply (bool_decide_unpack _). by vm_compute.
Defined.

Section AnalyzerFurther.
Context `{PyRuntime}.

Lemma split_from_bound (cur s : pystr) :
  (2 * length (split_from cur s)
   ≤ length s + match cur with [] => 1 | _ => 2 end)%nat.
Proof.
  revert cur. induction s as [|c s IH]; intros cur.
  - destruct cur; simpl; lia.
  - cbn [split_from]. destruct (chr_isspace c).
    + destruct cur; specialize (IH []); simpl in *; lia.
    + specialize (IH (c :: cur)). destruct cur; simpl in *; lia.
Qed.

Lemma split_from_nil (cur s : pystr) :
  split_from cur s = [] ↔ cur = [] ∧ Forall is_space s.
Proof.
  revert cur. induction s as [|c s IH]; intros cur.
  - destruct cur; simpl; split; try done; by intros [? _].
  - cbn [split_from]. destruct (chr_isspace c) eqn:Hc.
    + destruct cur as [|a cur].
      * rewrite IH. split.
        -- intros [_ Hs]. split; [done |]. by constructor.
        -- intros [_ Hs]. split; [done |]. by inversion Hs.
      * split; [done | by intros [? _]].
    + rewrite IH. split; [by intros [? _] |].
      intros [_ Hs]. inversion Hs as [|? ? Hsp _]; subst.
      unfold is_space in Hsp. congruence.
Qed.

Lemma remove_dups_full (s : pystr) :
  length (remove_dups s) = length s ↔ NoDup s.
Proof.
  split.
  - induction s as [|c s IH]; [constructor |].
    simpl. destruct (decide_rel _ c s) as [Hin|Hnin]; simpl.
    + pose proof (length_remove_dups_le s). lia.
    + intros [= Hlen]. constructor; [done | by apply IH].
  - intros Hnd. induction Hnd as [|c s Hnin _ IH]; [done |].
    simpl. destruct (decide_rel _ c s); [done |]. simpl. by rewrite IH.
Qed.

(** X27. The counts of a record are bounded by the value: there are at
    most as many distinct characters as characters, with equality
    exactly when no character repeats, and [n] words take at least
    [2n - 1] characters. *)
Theorem analyze_bounds (now s : pystr) :
  let p := rec_properties (analyze_string now s) in
  0 ≤ prop_unique_characters p ≤ prop_length p
  ∧ (prop_unique_characters p = prop_length p ↔ NoDup s)
  ∧ 0 ≤ prop_word_count p
  ∧ 2 * prop_word_count p ≤ prop_length p + 1.
Proof.
  simpl. rewrite size_list_to_set_remove_dups.
  pose proof (length_remove_dups_le s).
  pose proof (split_from_bound [] s) as Hw. fold (split s) in Hw.
  split; [lia |]. split; [| split; [lia |]].
  - rewrite <- remove_dups_full. split; [| congruence].
    by intros ?%Nat2Z.inj.
  - simpl in Hw. lia.
Qed.

(** X28. The empty and the blank value: [word_count] is 0 exactly when
    the value is whitespace only, [unique_characters] and [length] are 0
    exactly when it is empty, and then the frequency map is empty too. *)
Theorem analyze_blank (now s : pystr) :
  let p := rec_properties (analyze_string now s) in
  (prop_word_count p = 0 ↔ Forall is_space s)
  ∧ (prop_unique_characters p = 0 ↔ s = [])
  ∧ (prop_length p = 0 ↔ s = [])
  ∧ (prop_character_frequency_map p = ∅ ↔ s = []).
Proof.
  simpl. split; [| split; [| split]].
  - unfold split. pose proof (split_from_nil [] s) as Hnil.
    destruct (split_from [] s) as [|t toks]; simpl.
    + split; [| done]. intros _. by apply Hnil.
    + split; [lia |]. intros Hs.
      discriminate (proj2 Hnil (conj eq_refl Hs)).
  - rewrite size_list_to_set_remove_dups.
    destruct s as [|c s]; [done |]. split; [| done].
    simpl. destruct (decide_rel _ c s) as [Hin|Hnin]; simpl; [| lia].
    intros Hz. assert (Hl : length (remove_dups s) = 0%nat) by lia.
    apply nil_length_inv in Hl.
    apply elem_of_remove_dups in Hin. rewrite Hl in Hin.
    by apply elem_of_nil in Hin.
  - destruct s; simpl; split; try done; lia.
  - split; [| by intros ->].
    intros Hempty. destruct s as [|c s]; [done |].
    pose proof (character_frequency_map_lookup (c :: s) c) as Hc.
    rewrite Hempty, lookup_empty, decide_True in Hc by left. done.
Qed.
End AnalyzerFurther.
